(** * Aphelion instruction encoding: a shallow embedding of aphelion-util

    Machine integers ([u8], [u16], [u32], [u64]) are modelled as [Z] with the
    wrap-around of the Rust operations written out.  Code that may reach
    [unreachable!()] returns an [outcome], whose [Panic] case records the
    panic. *)

From Stdlib Require Import ZArith Bool List Lia.
Import ListNotations.

Local Open Scope Z_scope.

(** ** Outcomes of code that may panic *)

Inductive outcome (A : Type) : Type :=
| Done (a : A)
| Panic.
Arguments Done {A} a.
Arguments Panic {A}.

Definition obind {A B} (m : outcome A) (k : A -> outcome B) : outcome B :=
  match m with
  | Done a => k a
  | Panic => Panic
  end.

Notation "x <-! m ;; k" := (obind m (fun x => k))
  (at level 61, m at next level, right associativity).

(** ** Machine integers *)

Definition u8_max  : Z := 2 ^ 8.
Definition u16_max : Z := 2 ^ 16.
Definition u32_max : Z := 2 ^ 32.
Definition u64_max : Z := 2 ^ 64.

(** [u32::to_le_bytes], byte [k] of a word *)
Definition byte_of (w : Z) (k : Z) : Z := Z.land (Z.shiftr w (8 * k)) 255.

(** [u32::from_le_bytes] and [u16::from_le_bytes] *)
Definition u32_from_le_bytes (b0 b1 b2 b3 : Z) : Z :=
  b0 + 256 * b1 + 65536 * b2 + 16777216 * b3.
Definition u16_from_le_bytes (b0 b1 : Z) : Z := b0 + 256 * b1.

(** ** nibble.rs *)

Inductive Nibble : Type :=
| X0 | X1 | X2 | X3 | X4 | X5 | X6 | X7
| X8 | X9 | XA | XB | XC | XD | XE | XF.

(** [self as u8] *)
Definition as_u8 (n : Nibble) : Z :=
  match n with
  | X0 => 0 | X1 => 1 | X2 => 2 | X3 => 3 | X4 => 4 | X5 => 5 | X6 => 6 | X7 => 7
  | X8 => 8 | X9 => 9 | XA => 10 | XB => 11 | XC => 12 | XD => 13 | XE => 14 | XF => 15
  end.

Definition as_u8_upper (n : Nibble) : Z := Z.shiftl (as_u8 n) 4.

Definition compose (n upper : Nibble) : Z := Z.lor (as_u8 n) (as_u8_upper upper).

Definition Nibble_from_u8 (v : Z) : outcome Nibble :=
  match Z.land v 15 with
  | 0 => Done X0 | 1 => Done X1 | 2 => Done X2 | 3 => Done X3
  | 4 => Done X4 | 5 => Done X5 | 6 => Done X6 | 7 => Done X7
  | 8 => Done X8 | 9 => Done X9 | 10 => Done XA | 11 => Done XB
  | 12 => Done XC | 13 => Done XD | 14 => Done XE | 15 => Done XF
  | _ => Panic
  end.

Definition Nibble_from_u8_upper (v : Z) : outcome Nibble :=
  match Z.land v 240 with
  | 0 => Done X0 | 16 => Done X1 | 32 => Done X2 | 48 => Done X3
  | 64 => Done X4 | 80 => Done X5 | 96 => Done X6 | 112 => Done X7
  | 128 => Done X8 | 144 => Done X9 | 160 => Done XA | 176 => Done XB
  | 192 => Done XC | 208 => Done XD | 224 => Done XE | 240 => Done XF
  | _ => Panic
  end.

(** [Nibble::try_from_u8] *)
Definition Nibble_try_from_u8 (v : Z) : option Nibble :=
  match v with
  | 0 => Some X0 | 1 => Some X1 | 2 => Some X2 | 3 => Some X3
  | 4 => Some X4 | 5 => Some X5 | 6 => Some X6 | 7 => Some X7
  | 8 => Some X8 | 9 => Some X9 | 10 => Some XA | 11 => Some XB
  | 12 => Some XC | 13 => Some XD | 14 => Some XE | 15 => Some XF
  | _ => None
  end.

(** [Nibble::to_bool]: [!matches!(self, Self::X0)] *)
Definition Nibble_to_bool (n : Nibble) : bool := match n with X0 => false | _ => true end.

(** [Nibble::from_bool] *)
Definition Nibble_from_bool (v : bool) : Nibble := if v then X1 else X0.

(** [impl From<$type> for Nibble] for the integer types:
    [Self::from_u8(value as u8)]; [as u8] keeps the low 8 bits of the
    two's-complement value. *)
Definition Nibble_from_int (value : Z) : outcome Nibble := Nibble_from_u8 (value mod 2 ^ 8).

(** [impl From<Nibble> for $type] for the integer types: [value as u8 as Self] *)
Definition int_from_Nibble (value : Nibble) : Z := as_u8 value.

(** ** instruction.rs, module [encoding] *)

Record E := mkE { E_imm : Z; E_func : Nibble; E_rs2 : Nibble; E_rs1 : Nibble; E_rde : Nibble }.
Record R := mkR { R_imm : Z; R_rs2 : Nibble; R_rs1 : Nibble; R_rde : Nibble }.
Record M := mkM { M_imm : Z; M_rs1 : Nibble; M_rde : Nibble }.
Record F := mkF { F_imm : Z; F_func : Nibble; F_rde : Nibble }.
Record B := mkB { B_imm : Z; B_func : Nibble }.

Definition E_from_u32 (value : Z) : outcome E :=
  let b1 := byte_of value 1 in
  let b2 := byte_of value 2 in
  let b3 := byte_of value 3 in
  func <-! Nibble_from_u8 b2 ;;
  rs2 <-! Nibble_from_u8_upper b2 ;;
  rs1 <-! Nibble_from_u8 b3 ;;
  rde <-! Nibble_from_u8_upper b3 ;;
  Done (mkE b1 func rs2 rs1 rde).

Definition E_to_u32 (self : E) (opcode : Z) : Z :=
  u32_from_le_bytes opcode (E_imm self)
    (compose (E_func self) (E_rs2 self)) (compose (E_rs1 self) (E_rde self)).

Definition R_from_u32 (value : Z) : outcome R :=
  let b2 := byte_of value 2 in
  let b3 := byte_of value 3 in
  rs2 <-! Nibble_from_u8_upper b2 ;;
  rs1 <-! Nibble_from_u8 b3 ;;
  rde <-! Nibble_from_u8_upper b3 ;;
  Done (mkR (Z.land (Z.shiftr value 8) 4095) rs2 rs1 rde).

(** [u16::to_le_bytes] *)
Definition u16_byte (v : Z) (k : Z) : Z := Z.land (Z.shiftr v (8 * k)) 255.

Definition R_to_u32 (self : R) (opcode : Z) : outcome Z :=
  let imm0 := u16_byte (R_imm self) 0 in
  let imm1 := u16_byte (R_imm self) 1 in
  lo <-! Nibble_from_u8 imm1 ;;
  Done (u32_from_le_bytes opcode imm0 (compose lo (R_rs2 self))
         (compose (R_rs1 self) (R_rde self))).

Definition M_from_u32 (value : Z) : outcome M :=
  let b1 := byte_of value 1 in
  let b2 := byte_of value 2 in
  let b3 := byte_of value 3 in
  rs1 <-! Nibble_from_u8 b3 ;;
  rde <-! Nibble_from_u8_upper b3 ;;
  Done (mkM (u16_from_le_bytes b1 b2) rs1 rde).

Definition M_to_u32 (self : M) (opcode : Z) : Z :=
  u32_from_le_bytes opcode (u16_byte (M_imm self) 0) (u16_byte (M_imm self) 1)
    (compose (M_rs1 self) (M_rde self)).

Definition F_from_u32 (value : Z) : outcome F :=
  let b1 := byte_of value 1 in
  let b2 := byte_of value 2 in
  let b3 := byte_of value 3 in
  func <-! Nibble_from_u8 b3 ;;
  rde <-! Nibble_from_u8_upper b3 ;;
  Done (mkF (u16_from_le_bytes b1 b2) func rde).

Definition F_to_u32 (self : F) (opcode : Z) : Z :=
  u32_from_le_bytes opcode (u16_byte (F_imm self) 0) (u16_byte (F_imm self) 1)
    (compose (F_func self) (F_rde self)).

Definition B_from_u32 (value : Z) : outcome B :=
  let b3 := byte_of value 3 in
  func <-! Nibble_from_u8_upper b3 ;;
  Done (mkB (Z.land (Z.shiftr value 8) 1048575) func).

(** [(opcode as u32) | (imm << 8) | ((func.as_u8() as u32) << 28)]; the shift
    of a [u32] drops the bits pushed past bit 31. *)
Definition B_to_u32 (self : B) (opcode : Z) : Z :=
  Z.lor (Z.lor opcode (Z.shiftl (B_imm self) 8 mod u32_max))
        (Z.shiftl (as_u8 (B_func self)) 28 mod u32_max).

(** [Instruction::opcode] *)
Definition opcode (w : Z) : Z := byte_of w 0.

(** [u32::to_le_bytes] *)
Definition u32_to_le_bytes (w : Z) : list Z :=
  [byte_of w 0; byte_of w 1; byte_of w 2; byte_of w 3].

(** [a[i]] on an array: out of bounds panics *)
Definition index {A} (a : list A) (i : Z) : outcome A :=
  if i <? 0 then Panic
  else match nth_error a (Z.to_nat i) with Some x => Done x | None => Panic end.

(** [Instruction::nth_nibble]; [idx] is a [usize] *)
Definition nth_nibble (self idx : Z) : outcome Nibble :=
  if idx mod 2 =? 0 then
    b <-! index (u32_to_le_bytes self) (idx / 2) ;; Nibble_from_u8 b
  else
    b <-! index (u32_to_le_bytes self) (idx / 2) ;; Nibble_from_u8_upper b.

(** ** helper.rs, module [ops]: carry-aware addition and subtraction *)

(** [u as i64] and [s as u64] *)
Definition as_i64 (u : Z) : Z := if u <? 2 ^ 63 then u else u - 2 ^ 64.
Definition as_u64 (s : Z) : Z := s mod 2 ^ 64.

Definition i64_in_range (z : Z) : bool := (- 2 ^ 63 <=? z) && (z <? 2 ^ 63).

(** [u64::overflowing_add] / [u64::overflowing_sub] *)
Definition u64_overflowing_add (a b : Z) : Z * bool := ((a + b) mod 2 ^ 64, 2 ^ 64 <=? a + b).
Definition u64_overflowing_sub (a b : Z) : Z * bool := ((a - b) mod 2 ^ 64, a - b <? 0).

(** [i64::overflowing_add] / [i64::overflowing_sub] *)
Definition i64_overflowing_add (a b : Z) : Z * bool :=
  (as_i64 ((a + b) mod 2 ^ 64), negb (i64_in_range (a + b))).
Definition i64_overflowing_sub (a b : Z) : Z * bool :=
  (as_i64 ((a - b) mod 2 ^ 64), negb (i64_in_range (a - b))).

(** [carry as u64], [carry as i64] *)
Definition bool_as_int (c : bool) : Z := if c then 1 else 0.

Record AddResult := mkAddResult {
  result : Z;
  unsigned_overflow : bool;
  signed_overflow : bool
}.

Definition carrying_add_u (a b : Z) (carry : bool) : Z * bool :=
  let (v, a') := u64_overflowing_add a b in
  let (v', b') := u64_overflowing_add v (bool_as_int carry) in
  (v', a' || b').

Definition carrying_add_i (a b : Z) (carry : bool) : Z * bool :=
  let (v, a') := i64_overflowing_add (as_i64 a) (as_i64 b) in
  let (v', b') := i64_overflowing_add v (bool_as_int carry) in
  (as_u64 v', xorb a' b').

Definition add (a b : Z) (carry : bool) : AddResult :=
  let (result, unsigned_overflow) := carrying_add_u a b carry in
  let (_, signed_overflow) := carrying_add_i a b carry in
  mkAddResult result unsigned_overflow signed_overflow.

Definition carrying_sub_u (a b : Z) (carry : bool) : Z * bool :=
  let (v, a') := u64_overflowing_sub a b in
  let (v', b') := u64_overflowing_sub v (bool_as_int carry) in
  (v', a' || b').

Definition carrying_sub_i (a b : Z) (carry : bool) : Z * bool :=
  let (v, a') := i64_overflowing_sub (as_i64 a) (as_i64 b) in
  let (v', b') := i64_overflowing_sub v (bool_as_int carry) in
  (as_u64 v', xorb a' b').

Definition sub (a b : Z) (carry : bool) : AddResult :=
  let (result, unsigned_overflow) := carrying_sub_u a b carry in
  let (_, signed_overflow) := carrying_sub_i a b carry in
  mkAddResult result unsigned_overflow signed_overflow.

(** The overflow flags of the two steps (main operation, then carry) of the
    signed computation, as the code obtains them. *)
Definition add_signed_steps (a b : Z) (carry : bool) : bool * bool :=
  let (v, a') := i64_overflowing_add (as_i64 a) (as_i64 b) in
  let (_, b') := i64_overflowing_add v (bool_as_int carry) in (a', b').
Definition sub_signed_steps (a b : Z) (carry : bool) : bool * bool :=
  let (v, a') := i64_overflowing_sub (as_i64 a) (as_i64 b) in
  let (_, b') := i64_overflowing_sub v (bool_as_int carry) in (a', b').
Definition add_unsigned_steps (a b : Z) (carry : bool) : bool * bool :=
  let (v, a') := u64_overflowing_add a b in
  let (_, b') := u64_overflowing_add v (bool_as_int carry) in (a', b').
Definition sub_unsigned_steps (a b : Z) (carry : bool) : bool * bool :=
  let (v, a') := u64_overflowing_sub a b in
  let (_, b') := u64_overflowing_sub v (bool_as_int carry) in (a', b').

(** ** helper.rs, module [ops]: checked division *)

(** [i64::wrapping_add], [i64::wrapping_abs] *)
Definition i64_wrapping_add (x y : Z) : Z := as_i64 ((x + y) mod 2 ^ 64).
Definition i64_wrapping_abs (x : Z) : Z := as_i64 (Z.abs x mod 2 ^ 64).

(** [i64::checked_div], [i64::checked_rem]: [None] on a zero divisor and on
    [i64::MIN / -1]; Rust's [/] and [%] on integers truncate toward zero. *)
Definition i64_div_fails (x y : Z) : bool := (y =? 0) || ((x =? - 2 ^ 63) && (y =? -1)).
Definition i64_checked_div (x y : Z) : option Z :=
  if i64_div_fails x y then None else Some (Z.quot x y).
Definition i64_checked_rem (x y : Z) : option Z :=
  if i64_div_fails x y then None else Some (Z.rem x y).

(** [i64::rem_euclid] and [i64::checked_rem_euclid] *)
Definition i64_rem_euclid (x y : Z) : Z :=
  let r := Z.rem x y in
  if r <? 0 then i64_wrapping_add r (i64_wrapping_abs y) else r.
Definition i64_checked_rem_euclid (x y : Z) : option Z :=
  if i64_div_fails x y then None else Some (i64_rem_euclid x y).

(** [u64::checked_div] *)
Definition u64_checked_div (a b : Z) : option Z := if b =? 0 then None else Some (a / b).

Definition option_u64 (v : option Z) : option Z :=
  match v with Some v => Some (as_u64 v) | None => None end.

Definition idiv (a b : Z) : option Z := option_u64 (i64_checked_div (as_i64 a) (as_i64 b)).
Definition udiv (a b : Z) : option Z := u64_checked_div a b.
Definition rem (a b : Z) : option Z := option_u64 (i64_checked_rem (as_i64 a) (as_i64 b)).
(** [ops::r#mod] *)
Definition r_mod (a b : Z) : option Z :=
  option_u64 (i64_checked_rem_euclid (as_i64 a) (as_i64 b)).

(** [i64::wrapping_mul] *)
Definition i64_wrapping_mul (x y : Z) : Z := as_i64 ((x * y) mod 2 ^ 64).

(** [ops::imul]: [(a as i64).wrapping_mul(b as i64) as u64] *)
Definition imul (a b : Z) : Z := as_u64 (i64_wrapping_mul (as_i64 a) (as_i64 b)).

(** [ops::umul]: [a.wrapping_mul(b)] *)
Definition umul (a b : Z) : Z := (a * b) mod 2 ^ 64.

(** [ops::nor]: [!(a | b)] on [u64] *)
Definition nor (a b : Z) : Z := Z.lnot (Z.lor a b) mod 2 ^ 64.

(** [ops::shl], [ops::shr], [ops::asr] and [ops::bit]: [a << b] and
    [a >> b] on [u64], [(a as i64) >> b] (arithmetic) cast back to [u64],
    and [(a >> b) & 1].  A shift by [b >= 64] overflows; with overflow
    checks (debug builds) it panics. *)
Definition shl (a b : Z) : outcome Z :=
  if b <? 64 then Done (Z.shiftl a b mod 2 ^ 64) else Panic.
Definition shr (a b : Z) : outcome Z :=
  if b <? 64 then Done (Z.shiftr a b) else Panic.
Definition asr (a b : Z) : outcome Z :=
  if b <? 64 then Done (as_u64 (Z.shiftr (as_i64 a) b)) else Panic.
Definition bit (a b : Z) : outcome Z :=
  if b <? 64 then Done (Z.land (Z.shiftr a b) 1) else Panic.

(** ** helper.rs: [sign_extend] *)

(** [(((val << shift) as i64) >> shift) as u64] with [shift = 64 - BIT_SIZE];
    [<<] on [u64] drops the bits pushed past bit 63, [>>] on [i64] is
    arithmetic. *)
Definition sign_extend (BIT_SIZE : Z) (val : Z) : Z :=
  let shift := 64 - BIT_SIZE in
  as_u64 (Z.shiftr (as_i64 (Z.shiftl val shift mod 2 ^ 64)) shift).

(** The two's-complement value of the low [n] bits of [v] *)
Definition low_bits_signed (n v : Z) : Z :=
  let x := v mod 2 ^ n in if x <? 2 ^ (n - 1) then x else x - 2 ^ n.

(** ** helper.rs: [BitAccessTo] *)

(** [!x] on a [w]-bit unsigned integer *)
Definition not_w (w x : Z) : Z := Z.lnot x mod 2 ^ w.

(** [impl BitAccessTo<$type> for bool] on a [w]-bit container:
    [(to >> INDEX) != 0] *)
Definition bool_access_to (to INDEX : Z) : bool := negb (Z.shiftr to INDEX =? 0).

(** [if v { *to |= 1 << INDEX } else { *to &= !(1 << INDEX) }] *)
Definition bool_write_to (w to INDEX : Z) (v : bool) : Z :=
  if v then Z.lor to (Z.shiftl 1 INDEX mod 2 ^ w)
  else Z.land to (not_w w (Z.shiftl 1 INDEX mod 2 ^ w)).

(** [impl BitAccessTo<Nibble> for bool]: [(to as u8 >> INDEX) != 0] *)
Definition bool_access_to_Nibble (to : Nibble) (INDEX : Z) : bool :=
  negb (Z.shiftr (as_u8 to) INDEX =? 0).

(** the write returns early when [INDEX > 4], and rebuilds the nibble with
    [Nibble::from_u8] *)
Definition bool_write_to_Nibble (to : Nibble) (INDEX : Z) (v : bool) : outcome Nibble :=
  if 4 <? INDEX then Done to
  else if v then Nibble_from_u8 (Z.lor (as_u8 to) (Z.shiftl 1 INDEX mod 2 ^ 8))
  else Nibble_from_u8 (Z.land (as_u8 to) (not_w 8 (Z.shiftl 1 INDEX mod 2 ^ 8))).

(** [impl BitAccessTo<$to> for $type] with [$type] of [size] bits in a [w]-bit
    container: [(to >> (INDEX * size)) as Self] *)
Definition int_access_to (size to INDEX : Z) : Z := Z.shiftr to (INDEX * size) mod 2 ^ size.

(** [*to &= !($to::from(!0) << (INDEX * size)); *to |= $to::from(v) << (INDEX * size)] *)
Definition int_write_to (w size to INDEX v : Z) : Z :=
  let cleared := Z.land to (not_w w (Z.shiftl (2 ^ size - 1) (INDEX * size) mod 2 ^ w)) in
  Z.lor cleared (Z.shiftl v (INDEX * size) mod 2 ^ w).

(** ** registers.rs *)

Inductive Register : Type :=
| Rz | Ra | Rb | Rc | Rd | Re | Rf | Rg | Rh | Ri | Rj | Rk | Ip | Sp | Fp | St.

Definition Register_from_nibble (v : Nibble) : Register :=
  match v with
  | X0 => Rz | X1 => Ra | X2 => Rb | X3 => Rc | X4 => Rd | X5 => Re | X6 => Rf | X7 => Rg
  | X8 => Rh | X9 => Ri | XA => Rj | XB => Rk | XC => Ip | XD => Sp | XE => Fp | XF => St
  end.

Definition Register_to_nibble (r : Register) : Nibble :=
  match r with
  | Rz => X0 | Ra => X1 | Rb => X2 | Rc => X3 | Rd => X4 | Re => X5 | Rf => X6 | Rg => X7
  | Rh => X8 | Ri => X9 | Rj => XA | Rk => XB | Ip => XC | Sp => XD | Fp => XE | St => XF
  end.

(** [Register::to_u8]: [self as u8] *)
Definition Register_to_u8 (r : Register) : Z :=
  match r with
  | Rz => 0 | Ra => 1 | Rb => 2 | Rc => 3 | Rd => 4 | Re => 5 | Rf => 6 | Rg => 7
  | Rh => 8 | Ri => 9 | Rj => 10 | Rk => 11 | Ip => 12 | Sp => 13 | Fp => 14 | St => 15
  end.

(** [Register::try_from_u8] *)
Definition Register_try_from_u8 (v : Z) : option Register :=
  match v with
  | 0 => Some Rz | 1 => Some Ra | 2 => Some Rb | 3 => Some Rc
  | 4 => Some Rd | 5 => Some Re | 6 => Some Rf | 7 => Some Rg
  | 8 => Some Rh | 9 => Some Ri | 10 => Some Rj | 11 => Some Rk
  | 12 => Some Ip | 13 => Some Sp | 14 => Some Fp | 15 => Some St
  | _ => None
  end.

(** ** interrupt.rs: [Interrupt(u8)] *)

(** [match value.to_le_bytes() { [value, 0] => Some(Self(value)), _ => None }] *)
Definition Interrupt_try_from_u16 (value : Z) : option Z :=
  if u16_byte value 1 =? 0 then Some (u16_byte value 0) else None.

(** [Interrupt::is_reserved]: the seven named interrupts [0x00 ..= 0x06] *)
Definition Interrupt_is_reserved (i : Z) : bool :=
  match i with 0 | 1 | 2 | 3 | 4 | 5 | 6 => true | _ => false end.

(** ** instruction.rs, module [instruction_set]: sub-codes *)

Inductive BranchCond : Type :=
| Bra | Beq | Bez | Blt | Ble | Bltu | Bleu | Bne | Bnz | Bge | Bgt | Bgeu | Bgtu.

Definition BranchCond_try_from_nibble (value : Nibble) : option BranchCond :=
  match value with
  | X0 => Some Bra | X1 => Some Beq | X2 => Some Bez | X3 => Some Blt
  | X4 => Some Ble | X5 => Some Bltu | X6 => Some Bleu | X9 => Some Bne
  | XA => Some Bnz | XB => Some Bge | XC => Some Bgt | XD => Some Bgeu
  | XE => Some Bgtu
  | _ => None
  end.

(** [cc as u8], as a nibble *)
Definition BranchCond_to_nibble (cc : BranchCond) : Nibble :=
  match cc with
  | Bra => X0 | Beq => X1 | Bez => X2 | Blt => X3 | Ble => X4 | Bltu => X5 | Bleu => X6
  | Bne => X9 | Bnz => XA | Bge => XB | Bgt => XC | Bgeu => XD | Bgtu => XE
  end.

(** [cc as u8]: the declared discriminants *)
Definition BranchCond_as_u8 (cc : BranchCond) : Z :=
  match cc with
  | Bra => 0 | Beq => 1 | Bez => 2 | Blt => 3 | Ble => 4 | Bltu => 5 | Bleu => 6
  | Bne => 9 | Bnz => 10 | Bge => 11 | Bgt => 12 | Bgeu => 13 | Bgtu => 14
  end.

Inductive LiType : Type := Lli | Llis | Lui | Luis | Lti | Ltis | Ltui | Ltuis.

Definition LiType_try_from_nibble (value : Nibble) : option LiType :=
  match value with
  | X0 => Some Lli | X1 => Some Llis | X2 => Some Lui | X3 => Some Luis
  | X4 => Some Lti | X5 => Some Ltis | X6 => Some Ltui | X7 => Some Ltuis
  | _ => None
  end.

Definition LiType_to_nibble (t : LiType) : Nibble :=
  match t with
  | Lli => X0 | Llis => X1 | Lui => X2 | Luis => X3
  | Lti => X4 | Ltis => X5 | Ltui => X6 | Ltuis => X7
  end.

(** [t as u8]: the declared discriminants *)
Definition LiType_as_u8 (t : LiType) : Z :=
  match t with
  | Lli => 0 | Llis => 1 | Lui => 2 | Luis => 3 | Lti => 4 | Ltis => 5 | Ltui => 6 | Ltuis => 7
  end.

Inductive FloatPrecision : Type := F16 | F32 | F64.

Definition FloatPrecision_try_from_u8 (value : Z) : option FloatPrecision :=
  match value with
  | 0 => Some F16 | 1 => Some F32 | 2 => Some F64
  | _ => None
  end.

Definition FloatPrecision_try_from_nibble (value : Nibble) : option FloatPrecision :=
  match value with
  | X0 => Some F16 | X1 => Some F32 | X2 => Some F64
  | _ => None
  end.

Definition FloatPrecision_as_u8 (p : FloatPrecision) : Z :=
  match p with F16 => 0 | F32 => 1 | F64 => 2 end.

Record FloatCastType := mkFloatCastType { to : FloatPrecision; from : FloatPrecision }.

(** [(FloatPrecision::try_from_u8((value as u8) & 0x11),
      FloatPrecision::try_from_u8((value as u8) >> 2))] *)
Definition FloatCastType_try_from_nibble (value : Nibble) : option FloatCastType :=
  match FloatPrecision_try_from_u8 (Z.land (as_u8 value) 17),
        FloatPrecision_try_from_u8 (Z.shiftr (as_u8 value) 2) with
  | Some to, Some from => Some (mkFloatCastType to from)
  | _, _ => None
  end.

(** ** instruction.rs: the [InstructionSet] union; [Interrupt] and [Port]
    operands are their [u8] and [u16] payloads. *)

Inductive InstructionSet : Type :=
(* System Control *)
| Int (imm8 : Z)
| Iret
| Ires
| Usr (rd : Register)
(* Input & Output *)
| Outr (rd rs : Register)
| Outi (imm16 : Z) (rs : Register)
| Inr (rd rs : Register)
| Ini (rd : Register) (imm16 : Z)
(* Control Flow *)
| Jal (rs : Register) (imm16 : Z)
| Jalr (rd rs : Register) (imm16 : Z)
| Ret
| Retr (rs : Register)
| Branch (cc : BranchCond) (imm20 : Z)
(* Stack Operations *)
| Push (rs : Register)
| Pop (rd : Register)
| Enter
| Leave
(* Data Flow *)
| Li (rd : Register) (func : LiType) (imm : Z)
| Lw (rd rs rn : Register) (sh : Nibble) (off : Z)
| Lh (rd rs rn : Register) (sh : Nibble) (off : Z)
| Lhs (rd rs rn : Register) (sh : Nibble) (off : Z)
| Lq (rd rs rn : Register) (sh : Nibble) (off : Z)
| Lqs (rd rs rn : Register) (sh : Nibble) (off : Z)
| Lb (rd rs rn : Register) (sh : Nibble) (off : Z)
| Lbs (rd rs rn : Register) (sh : Nibble) (off : Z)
| Sw (rd rs rn : Register) (sh : Nibble) (off : Z)
| Sh (rd rs rn : Register) (sh : Nibble) (off : Z)
| Sq (rd rs rn : Register) (sh : Nibble) (off : Z)
| Sb (rd rs rn : Register) (sh : Nibble) (off : Z)
(* Comparisons *)
| Cmpr (r1 r2 : Register)
| Cmpi (r1 : Register) (s : bool) (imm : Z)
(* Arithmetic Operations *)
| Addr (rd r1 r2 : Register)
| Addi (rd r1 : Register) (imm16 : Z)
| Subr (rd r1 r2 : Register)
| Subi (rd r1 : Register) (imm16 : Z)
| Imulr (rd r1 r2 : Register)
| Imuli (rd r1 : Register) (imm16 : Z)
| Idivr (rd r1 r2 : Register)
| Idivi (rd r1 : Register) (imm16 : Z)
| Umulr (rd r1 r2 : Register)
| Umuli (rd r1 : Register) (imm16 : Z)
| Udivr (rd r1 r2 : Register)
| Udivi (rd r1 : Register) (imm16 : Z)
| Remr (rd r1 r2 : Register)
| Remi (rd r1 : Register) (imm16 : Z)
| Modr (rd r1 r2 : Register)
| Modi (rd r1 : Register) (imm16 : Z)
(* Bitwise Operations *)
| Andr (rd r1 r2 : Register)
| Andi (rd r1 : Register) (imm16 : Z)
| Orr (rd r1 r2 : Register)
| Ori (rd r1 : Register) (imm16 : Z)
| Norr (rd r1 r2 : Register)
| Nori (rd r1 : Register) (imm16 : Z)
| Xorr (rd r1 r2 : Register)
| Xori (rd r1 : Register) (imm16 : Z)
| Shlr (rd r1 r2 : Register)
| Shli (rd r1 : Register) (imm16 : Z)
| Asrr (rd r1 r2 : Register)
| Asri (rd r1 : Register) (imm16 : Z)
| Lsrr (rd r1 r2 : Register)
| Lsri (rd r1 : Register) (imm16 : Z)
| Bitr (rd r1 r2 : Register)
| Biti (rd r1 : Register) (imm16 : Z)
(* Floating-Point Operations *)
| Fcmp (r1 r2 : Register) (p : FloatPrecision)
| Fto (rd rs : Register) (p : FloatPrecision)
| Ffrom (rd rs : Register) (p : FloatPrecision)
| Fneg (rd rs : Register) (p : FloatPrecision)
| Fabs (rd rs : Register) (p : FloatPrecision)
| Fadd (rd r1 r2 : Register) (p : FloatPrecision)
| Fsub (rd r1 r2 : Register) (p : FloatPrecision)
| Fmul (rd r1 r2 : Register) (p : FloatPrecision)
| Fdiv (rd r1 r2 : Register) (p : FloatPrecision)
| Fma (rd r1 r2 : Register) (p : FloatPrecision)
| Fsqrt (rd r1 : Register) (p : FloatPrecision)
| Fmin (rd r1 r2 : Register) (p : FloatPrecision)
| Fmax (rd r1 r2 : Register) (p : FloatPrecision)
| Fsat (rd r1 : Register) (p : FloatPrecision)
| Fcnv (rd r1 : Register) (p : FloatCastType)
| Fnan (rd r1 : Register) (p : FloatPrecision).

(** Decoding may return [None] early (the [?] operator) or panic
    ([unreachable!()]). *)
Definition decoded (A : Type) := outcome (option A).
Definition yield {A} (a : A) : decoded A := Done (Some a).
Definition reject {A} : decoded A := Done None.
Definition unreachable {A} : decoded A := Panic.

(** [let x = o?; k] *)
Definition otry {A B} (o : option A) (k : A -> decoded B) : decoded B :=
  match o with Some a => k a | None => reject end.

Notation "x <-? o ;; k" := (otry o (fun x => k))
  (at level 61, o at next level, right associativity).

Definition in_range (lo hi o : Z) : bool := (lo <=? o) && (o <=? hi).

(** [InstructionSet::try_from_instruction]; [i] is the 32-bit word of the
    [Instruction]. *)
Definition try_from_instruction (i : Z) : decoded InstructionSet :=
  let opc := opcode i in
  (* System Control *)
  if opc =? 1 then
    fr <-! F_from_u32 i ;;
    let imm8 := Interrupt_try_from_u16 (F_imm fr) in
    let rd := Register_from_nibble (F_rde fr) in
    match F_func fr with
    | X0 => imm8' <-? imm8 ;; yield (Int imm8')
    | X1 => yield Iret
    | X2 => yield Ires
    | X3 => yield (Usr rd)
    | _ => reject
    end
  (* Input & Output *)
  else if in_range 2 5 opc then
    mr <-! M_from_u32 i ;;
    let rs := Register_from_nibble (M_rs1 mr) in
    let rd := Register_from_nibble (M_rde mr) in
    let imm16 := M_imm mr in
    match opc with
    | 2 => yield (Outr rd rs)
    | 3 => yield (Outi imm16 rs)
    | 4 => yield (Inr rd rs)
    | 5 => yield (Ini rd imm16)
    | _ => unreachable
    end
  (* Control Flow *)
  else if in_range 6 9 opc then
    mr <-! M_from_u32 i ;;
    let imm16 := M_imm mr in
    let rs := Register_from_nibble (M_rs1 mr) in
    let rd := Register_from_nibble (M_rde mr) in
    match opc with
    | 6 => yield (Jal rs imm16)
    | 7 => yield (Jalr rd rs imm16)
    | 8 => yield Ret
    | 9 => yield (Retr rs)
    | _ => unreachable
    end
  else if opc =? 10 then
    br <-! B_from_u32 i ;;
    cc <-? BranchCond_try_from_nibble (B_func br) ;;
    yield (Branch cc (B_imm br))
  (* Stack Operations *)
  else if opc =? 11 then
    mr <-! M_from_u32 i ;; yield (Push (Register_from_nibble (M_rs1 mr)))
  else if opc =? 12 then
    mr <-! M_from_u32 i ;; yield (Pop (Register_from_nibble (M_rde mr)))
  else if opc =? 13 then yield Enter
  else if opc =? 14 then yield Leave
  (* Data Flow *)
  else if opc =? 16 then
    fr <-! F_from_u32 i ;;
    func <-? LiType_try_from_nibble (F_func fr) ;;
    let rd := Register_from_nibble (F_rde fr) in
    yield (Li rd func (F_imm fr))
  else if in_range 17 27 opc then
    er <-! E_from_u32 i ;;
    let off := E_imm er in
    let sh := E_func er in
    let rn := Register_from_nibble (E_rs2 er) in
    let rs := Register_from_nibble (E_rs1 er) in
    let rd := Register_from_nibble (E_rde er) in
    match opc with
    | 17 => yield (Lw rd rs rn sh off)
    | 18 => yield (Lh rd rs rn sh off)
    | 19 => yield (Lhs rd rs rn sh off)
    | 20 => yield (Lq rd rs rn sh off)
    | 21 => yield (Lqs rd rs rn sh off)
    | 22 => yield (Lb rd rs rn sh off)
    | 23 => yield (Lbs rd rs rn sh off)
    | 24 => yield (Sw rd rs rn sh off)
    | 25 => yield (Sh rd rs rn sh off)
    | 26 => yield (Sq rd rs rn sh off)
    | 27 => yield (Sb rd rs rn sh off)
    | _ => unreachable
    end
  (* Comparisons *)
  else if opc =? 30 then
    m1 <-! M_from_u32 i ;;
    let r1 := Register_from_nibble (M_rde m1) in
    m2 <-! M_from_u32 i ;;
    let r2 := Register_from_nibble (M_rs1 m2) in
    yield (Cmpr r1 r2)
  else if opc =? 31 then
    fr <-! F_from_u32 i ;;
    let r1 := Register_from_nibble (F_rde fr) in
    match F_func fr with
    | X0 => yield (Cmpi r1 false (F_imm fr))
    | X1 => yield (Cmpi r1 true (F_imm fr))
    | _ => reject
    end
  (* Arithmetic & Bitwise Operations *)
  else if in_range 32 63 opc && (opc mod 2 =? 0) then
    rr <-! R_from_u32 i ;;
    let rd := Register_from_nibble (R_rde rr) in
    let r1 := Register_from_nibble (R_rs1 rr) in
    let r2 := Register_from_nibble (R_rs2 rr) in
    match opc with
    | 32 => yield (Addr rd r1 r2)
    | 34 => yield (Subr rd r1 r2)
    | 36 => yield (Imulr rd r1 r2)
    | 38 => yield (Idivr rd r1 r2)
    | 40 => yield (Umulr rd r1 r2)
    | 42 => yield (Udivr rd r1 r2)
    | 44 => yield (Remr rd r1 r2)
    | 46 => yield (Modr rd r1 r2)
    | 48 => yield (Andr rd r1 r2)
    | 50 => yield (Orr rd r1 r2)
    | 52 => yield (Norr rd r1 r2)
    | 54 => yield (Xorr rd r1 r2)
    | 56 => yield (Shlr rd r1 r2)
    | 58 => yield (Asrr rd r1 r2)
    | 60 => yield (Lsrr rd r1 r2)
    | 62 => yield (Bitr rd r1 r2)
    | _ => unreachable
    end
  else if in_range 32 63 opc then
    mr <-! M_from_u32 i ;;
    let imm16 := M_imm mr in
    let rd := Register_from_nibble (M_rde mr) in
    let r1 := Register_from_nibble (M_rs1 mr) in
    match opc with
    | 33 => yield (Addi rd r1 imm16)
    | 35 => yield (Subi rd r1 imm16)
    | 37 => yield (Imuli rd r1 imm16)
    | 39 => yield (Idivi rd r1 imm16)
    | 41 => yield (Umuli rd r1 imm16)
    | 43 => yield (Udivi rd r1 imm16)
    | 45 => yield (Remi rd r1 imm16)
    | 47 => yield (Modi rd r1 imm16)
    | 49 => yield (Andi rd r1 imm16)
    | 51 => yield (Ori rd r1 imm16)
    | 53 => yield (Nori rd r1 imm16)
    | 55 => yield (Xori rd r1 imm16)
    | 57 => yield (Shli rd r1 imm16)
    | 59 => yield (Asri rd r1 imm16)
    | 61 => yield (Lsri rd r1 imm16)
    | 63 => yield (Biti rd r1 imm16)
    | _ => unreachable
    end
  (* Floating Point Operations *)
  else if in_range 64 79 opc then
    er <-! E_from_u32 i ;;
    let rd := Register_from_nibble (E_rde er) in
    let r1 := Register_from_nibble (E_rs1 er) in
    let r2 := Register_from_nibble (E_rs2 er) in
    let p := FloatPrecision_try_from_nibble (E_func er) in
    let pp := FloatCastType_try_from_nibble (E_func er) in
    match opc with
    | 64 => p' <-? p ;; yield (Fcmp r1 r2 p')
    | 65 => p' <-? p ;; yield (Fto rd r1 p')
    | 66 => p' <-? p ;; yield (Ffrom rd r1 p')
    | 67 => p' <-? p ;; yield (Fneg rd r1 p')
    | 68 => p' <-? p ;; yield (Fabs rd r1 p')
    | 69 => p' <-? p ;; yield (Fadd rd r1 r2 p')
    | 70 => p' <-? p ;; yield (Fsub rd r1 r2 p')
    | 71 => p' <-? p ;; yield (Fmul rd r1 r2 p')
    | 72 => p' <-? p ;; yield (Fdiv rd r1 r2 p')
    | 73 => p' <-? p ;; yield (Fma rd r1 r2 p')
    | 74 => p' <-? p ;; yield (Fsqrt rd r1 p')
    | 75 => p' <-? p ;; yield (Fmin rd r1 r2 p')
    | 76 => p' <-? p ;; yield (Fmax rd r1 r2 p')
    | 77 => p' <-? p ;; yield (Fsat rd r1 p')
    | 78 => pp' <-? pp ;; yield (Fcnv rd r1 pp')
    | 79 => p' <-? p ;; yield (Fnan rd r1 p')
    | _ => unreachable
    end
  else reject.

(** *** Encoding an [InstructionSet] *)

(** The nibble of a float precision, [p as u8] *)
Definition FloatPrecision_to_nibble (p : FloatPrecision) : Nibble :=
  match p with F16 => X0 | F32 => X1 | F64 => X2 end.

(** The cast sub-code: [from] in bits 2..3, [to] in bits 0..1, the split the
    decoder reads [from] with ([value >> 2]). *)
Definition FloatCastType_to_nibble (ct : FloatCastType) : Nibble :=
  match from ct, to ct with
  | F16, F16 => X0 | F16, F32 => X1 | F16, F64 => X2
  | F32, F16 => X4 | F32, F32 => X5 | F32, F64 => X6
  | F64, F16 => X8 | F64, F32 => X9 | F64, F64 => XA
  end.

Definition reg := Register_to_nibble.

Definition enc_E (op off : Z) (func rs2 rs1 rde : Nibble) : Z := E_to_u32 (mkE off func rs2 rs1 rde) op.
Definition enc_M (op imm : Z) (rs1 rde : Nibble) : Z := M_to_u32 (mkM imm rs1 rde) op.
Definition enc_F (op imm : Z) (func rde : Nibble) : Z := F_to_u32 (mkF imm func rde) op.
(** [R::to_u32] cannot panic (its [Nibble::from_u8] masks); the [X0]
    fallback is never taken. *)
Definition enc_R (op : Z) (rs2 rs1 rde : Nibble) : Z :=
  match R_to_u32 (mkR 0 rs2 rs1 rde) op with Done w => w | Panic => 0 end.
(** the 20-bit immediate masked to its declared width *)
Definition enc_B (op imm : Z) (func : Nibble) : Z := B_to_u32 (mkB (Z.land imm 1048575) func) op.

(** Modelled from the spec: [InstructionSet::to_instruction], which main.rs
    calls but whose body is not in the repository sources.  Following §4.5:
    select the variant's format, pack its fields (masking each to its
    declared width), and prepend the variant's fixed opcode; fields that the
    variant does not carry are zero. *)
Definition to_instruction (v : InstructionSet) : Z :=
  match v with
  | Int imm8 => enc_F 1 imm8 X0 X0
  | Iret => enc_F 1 0 X1 X0
  | Ires => enc_F 1 0 X2 X0
  | Usr rd => enc_F 1 0 X3 (reg rd)
  | Outr rd rs => enc_M 2 0 (reg rs) (reg rd)
  | Outi imm16 rs => enc_M 3 imm16 (reg rs) X0
  | Inr rd rs => enc_M 4 0 (reg rs) (reg rd)
  | Ini rd imm16 => enc_M 5 imm16 X0 (reg rd)
  | Jal rs imm16 => enc_M 6 imm16 (reg rs) X0
  | Jalr rd rs imm16 => enc_M 7 imm16 (reg rs) (reg rd)
  | Ret => enc_M 8 0 X0 X0
  | Retr rs => enc_M 9 0 (reg rs) X0
  | Branch cc imm20 => enc_B 10 imm20 (BranchCond_to_nibble cc)
  | Push rs => enc_M 11 0 (reg rs) X0
  | Pop rd => enc_M 12 0 X0 (reg rd)
  | Enter => enc_M 13 0 X0 X0
  | Leave => enc_M 14 0 X0 X0
  | Li rd func imm => enc_F 16 imm (LiType_to_nibble func) (reg rd)
  | Lw rd rs rn sh off => enc_E 17 off sh (reg rn) (reg rs) (reg rd)
  | Lh rd rs rn sh off => enc_E 18 off sh (reg rn) (reg rs) (reg rd)
  | Lhs rd rs rn sh off => enc_E 19 off sh (reg rn) (reg rs) (reg rd)
  | Lq rd rs rn sh off => enc_E 20 off sh (reg rn) (reg rs) (reg rd)
  | Lqs rd rs rn sh off => enc_E 21 off sh (reg rn) (reg rs) (reg rd)
  | Lb rd rs rn sh off => enc_E 22 off sh (reg rn) (reg rs) (reg rd)
  | Lbs rd rs rn sh off => enc_E 23 off sh (reg rn) (reg rs) (reg rd)
  | Sw rd rs rn sh off => enc_E 24 off sh (reg rn) (reg rs) (reg rd)
  | Sh rd rs rn sh off => enc_E 25 off sh (reg rn) (reg rs) (reg rd)
  | Sq rd rs rn sh off => enc_E 26 off sh (reg rn) (reg rs) (reg rd)
  | Sb rd rs rn sh off => enc_E 27 off sh (reg rn) (reg rs) (reg rd)
  | Cmpr r1 r2 => enc_M 30 0 (reg r2) (reg r1)
  | Cmpi r1 s imm => enc_F 31 imm (if s then X1 else X0) (reg r1)
  | Addr rd r1 r2 => enc_R 32 (reg r2) (reg r1) (reg rd)
  | Addi rd r1 imm16 => enc_M 33 imm16 (reg r1) (reg rd)
  | Subr rd r1 r2 => enc_R 34 (reg r2) (reg r1) (reg rd)
  | Subi rd r1 imm16 => enc_M 35 imm16 (reg r1) (reg rd)
  | Imulr rd r1 r2 => enc_R 36 (reg r2) (reg r1) (reg rd)
  | Imuli rd r1 imm16 => enc_M 37 imm16 (reg r1) (reg rd)
  | Idivr rd r1 r2 => enc_R 38 (reg r2) (reg r1) (reg rd)
  | Idivi rd r1 imm16 => enc_M 39 imm16 (reg r1) (reg rd)
  | Umulr rd r1 r2 => enc_R 40 (reg r2) (reg r1) (reg rd)
  | Umuli rd r1 imm16 => enc_M 41 imm16 (reg r1) (reg rd)
  | Udivr rd r1 r2 => enc_R 42 (reg r2) (reg r1) (reg rd)
  | Udivi rd r1 imm16 => enc_M 43 imm16 (reg r1) (reg rd)
  | Remr rd r1 r2 => enc_R 44 (reg r2) (reg r1) (reg rd)
  | Remi rd r1 imm16 => enc_M 45 imm16 (reg r1) (reg rd)
  | Modr rd r1 r2 => enc_R 46 (reg r2) (reg r1) (reg rd)
  | Modi rd r1 imm16 => enc_M 47 imm16 (reg r1) (reg rd)
  | Andr rd r1 r2 => enc_R 48 (reg r2) (reg r1) (reg rd)
  | Andi rd r1 imm16 => enc_M 49 imm16 (reg r1) (reg rd)
  | Orr rd r1 r2 => enc_R 50 (reg r2) (reg r1) (reg rd)
  | Ori rd r1 imm16 => enc_M 51 imm16 (reg r1) (reg rd)
  | Norr rd r1 r2 => enc_R 52 (reg r2) (reg r1) (reg rd)
  | Nori rd r1 imm16 => enc_M 53 imm16 (reg r1) (reg rd)
  | Xorr rd r1 r2 => enc_R 54 (reg r2) (reg r1) (reg rd)
  | Xori rd r1 imm16 => enc_M 55 imm16 (reg r1) (reg rd)
  | Shlr rd r1 r2 => enc_R 56 (reg r2) (reg r1) (reg rd)
  | Shli rd r1 imm16 => enc_M 57 imm16 (reg r1) (reg rd)
  | Asrr rd r1 r2 => enc_R 58 (reg r2) (reg r1) (reg rd)
  | Asri rd r1 imm16 => enc_M 59 imm16 (reg r1) (reg rd)
  | Lsrr rd r1 r2 => enc_R 60 (reg r2) (reg r1) (reg rd)
  | Lsri rd r1 imm16 => enc_M 61 imm16 (reg r1) (reg rd)
  | Bitr rd r1 r2 => enc_R 62 (reg r2) (reg r1) (reg rd)
  | Biti rd r1 imm16 => enc_M 63 imm16 (reg r1) (reg rd)
  | Fcmp r1 r2 p => enc_E 64 0 (FloatPrecision_to_nibble p) (reg r2) (reg r1) X0
  | Fto rd rs p => enc_E 65 0 (FloatPrecision_to_nibble p) X0 (reg rs) (reg rd)
  | Ffrom rd rs p => enc_E 66 0 (FloatPrecision_to_nibble p) X0 (reg rs) (reg rd)
  | Fneg rd rs p => enc_E 67 0 (FloatPrecision_to_nibble p) X0 (reg rs) (reg rd)
  | Fabs rd rs p => enc_E 68 0 (FloatPrecision_to_nibble p) X0 (reg rs) (reg rd)
  | Fadd rd r1 r2 p => enc_E 69 0 (FloatPrecision_to_nibble p) (reg r2) (reg r1) (reg rd)
  | Fsub rd r1 r2 p => enc_E 70 0 (FloatPrecision_to_nibble p) (reg r2) (reg r1) (reg rd)
  | Fmul rd r1 r2 p => enc_E 71 0 (FloatPrecision_to_nibble p) (reg r2) (reg r1) (reg rd)
  | Fdiv rd r1 r2 p => enc_E 72 0 (FloatPrecision_to_nibble p) (reg r2) (reg r1) (reg rd)
  | Fma rd r1 r2 p => enc_E 73 0 (FloatPrecision_to_nibble p) (reg r2) (reg r1) (reg rd)
  | Fsqrt rd r1 p => enc_E 74 0 (FloatPrecision_to_nibble p) X0 (reg r1) (reg rd)
  | Fmin rd r1 r2 p => enc_E 75 0 (FloatPrecision_to_nibble p) (reg r2) (reg r1) (reg rd)
  | Fmax rd r1 r2 p => enc_E 76 0 (FloatPrecision_to_nibble p) (reg r2) (reg r1) (reg rd)
  | Fsat rd r1 p => enc_E 77 0 (FloatPrecision_to_nibble p) X0 (reg r1) (reg rd)
  | Fcnv rd r1 p => enc_E 78 0 (FloatCastType_to_nibble p) X0 (reg r1) (reg rd)
  | Fnan rd r1 p => enc_E 79 0 (FloatPrecision_to_nibble p) X0 (reg r1) (reg rd)
  end.

(** Every immediate of a variant lies in the range of its Rust type
    ([u8], [u16], [u32]): the variants a caller can construct. *)
Definition in_u (bits : Z) (x : Z) : bool := (0 <=? x) && (x <? 2 ^ bits).

Definition constructible (v : InstructionSet) : bool :=
  match v with
  | Int imm8 => in_u 8 imm8
  | Outi imm16 _ | Ini _ imm16 | Jal _ imm16 | Jalr _ _ imm16 => in_u 16 imm16
  | Branch _ imm20 => in_u 32 imm20
  | Li _ _ imm | Cmpi _ _ imm => in_u 16 imm
  | Lw _ _ _ _ off | Lh _ _ _ _ off | Lhs _ _ _ _ off | Lq _ _ _ _ off
  | Lqs _ _ _ _ off | Lb _ _ _ _ off | Lbs _ _ _ _ off | Sw _ _ _ _ off
  | Sh _ _ _ _ off | Sq _ _ _ _ off | Sb _ _ _ _ off => in_u 8 off
  | Addi _ _ imm16 | Subi _ _ imm16 | Imuli _ _ imm16 | Idivi _ _ imm16
  | Umuli _ _ imm16 | Udivi _ _ imm16 | Remi _ _ imm16 | Modi _ _ imm16
  | Andi _ _ imm16 | Ori _ _ imm16 | Nori _ _ imm16 | Xori _ _ imm16
  | Shli _ _ imm16 | Asri _ _ imm16 | Lsri _ _ imm16 | Biti _ _ imm16 => in_u 16 imm16
  | _ => true
  end.

(** The variants for which decoding gives back what was encoded: the
    constructible ones, except a [Branch] whose immediate does not fit in
    the 20 bits of the [B] format and an [Fcnv] whose destination
    precision is [F64] (which [FloatCastType::try_from_nibble] decodes
    as a cast to [F16]). *)
Definition encodable (v : InstructionSet) : bool :=
  constructible v &&
  match v with
  | Branch _ imm20 => imm20 <? 2 ^ 20
  | Fcnv _ _ p => match to p with F64 => false | _ => true end
  | _ => true
  end.

(** The values [0 .. n-1], for checks over a finite range *)
Definition zrange (n : nat) : list Z := map Z.of_nat (seq 0 n).

(** [Nibble::from_u8_upper] reads the upper nibble of [v] *)
Definition upper_ok (v : Z) : bool :=
  match Nibble_from_u8_upper v with
  | Done n => as_u8 n =? v / 16
  | Panic => false
  end.

(** ** Arithmetic facts about bytes and nibbles *)

(** Sample evaluations *)
Example from_u8_1B : Nibble_from_u8 27 = Done XB. Proof. reflexivity. Qed.
Example from_u8_upper_1B : Nibble_from_u8_upper 27 = Done X1. Proof. reflexivity. Qed.
Example compose_96 : compose X9 X6 = 105. Proof. reflexivity. Qed.
Example add_umax_1 : unsigned_overflow (add (2 ^ 64 - 1) 1 false) = true.
Proof. reflexivity. Qed.
Example add_imax_1 :
  signed_overflow (add (2 ^ 63 - 1) 1 false) = true /\
  unsigned_overflow (add (2 ^ 63 - 1) 1 false) = false.
Proof. split; reflexivity. Qed.
Example add_min_m1_carry :
  add (2 ^ 63) (2 ^ 64 - 1) true = mkAddResult (2 ^ 63) true false.
Proof. reflexivity. Qed.

Lemma land_255_mod (x : Z) : Z.land x 255 = x mod 256.
Proof. change 255 with (Z.ones 8). rewrite Z.land_ones by lia. reflexivity. Qed.

Lemma byte_of_div (w k : Z) : 0 <= k -> byte_of w k = (w / 2 ^ (8 * k)) mod 256.
Proof.
  intros Hk. unfold byte_of. rewrite land_255_mod, Z.shiftr_div_pow2 by lia.
  reflexivity.
Qed.

Lemma u16_byte_div (w k : Z) : 0 <= k -> u16_byte w k = (w / 2 ^ (8 * k)) mod 256.
Proof. apply byte_of_div. Qed.

Lemma land_15_mod (x : Z) : Z.land x 15 = x mod 16.
Proof. change 15 with (Z.ones 4). rewrite Z.land_ones by lia. reflexivity. Qed.

Lemma in_zrange (n : nat) (v : Z) : 0 <= v < Z.of_nat n -> In v (zrange n).
Proof.
  intros Hv. unfold zrange. apply in_map_iff. exists (Z.to_nat v).
  split; [lia|]. apply in_seq. lia.
Qed.

Lemma Nibble_from_u8_spec (v : Z) :
  exists n, Nibble_from_u8 v = Done n /\ as_u8 n = v mod 16.
Proof.
  unfold Nibble_from_u8. rewrite land_15_mod.
  pose proof (Z.mod_pos_bound v 16 ltac:(lia)) as Hb.
  destruct (v mod 16) as [|p|p] eqn:Hm; [eexists; split; reflexivity| |lia].
  do 15 (destruct p as [p|p|]; try (eexists; split; reflexivity); try lia);
    destruct p; lia.
Qed.

Lemma upper_ok_all : forallb upper_ok (zrange 256) = true.
Proof. vm_compute. reflexivity. Qed.

Lemma Nibble_from_u8_upper_spec (v : Z) :
  0 <= v < 256 -> exists n, Nibble_from_u8_upper v = Done n /\ as_u8 n = v / 16.
Proof.
  intros Hv. pose proof upper_ok_all as H. rewrite forallb_forall in H.
  specialize (H v (in_zrange 256 v Hv)). unfold upper_ok in H.
  destruct (Nibble_from_u8_upper v) as [n|]; [|discriminate].
  exists n. split; [reflexivity|]. now apply Z.eqb_eq.
Qed.

Lemma as_u8_range (n : Nibble) : 0 <= as_u8 n < 16.
Proof. destruct n; simpl; lia. Qed.

Lemma compose_add (n u : Nibble) : compose n u = as_u8 n + 16 * as_u8 u.
Proof. destruct n, u; reflexivity. Qed.

Lemma byte_of_range (w k : Z) : 0 <= byte_of w k < 256.
Proof.
  unfold byte_of. rewrite land_255_mod. apply Z.mod_pos_bound. lia.
Qed.

Lemma land_shiftl_disjoint (a b k : Z) :
  0 <= k -> 0 <= a < 2 ^ k -> Z.land a (b * 2 ^ k) = 0.
Proof.
  intros Hk Ha. apply Z.bits_inj'. intros i Hi.
  rewrite Z.land_spec, Z.bits_0, <- Z.shiftl_mul_pow2 by lia.
  destruct (Z.lt_ge_cases i k) as [Hl|Hl].
  - rewrite Z.shiftl_spec_low by lia. apply andb_false_r.
  - rewrite <- (Z.mod_small a (2 ^ k)) by lia.
    rewrite Z.mod_pow2_bits_high by lia. reflexivity.
Qed.

(** Or-ing values that occupy disjoint bit ranges adds them. *)
Lemma lor_shift_add (a b k : Z) :
  0 <= k -> 0 <= a < 2 ^ k -> Z.lor a (b * 2 ^ k) = a + b * 2 ^ k.
Proof.
  intros Hk Ha. pose proof (land_shiftl_disjoint a b k Hk Ha) as H0.
  rewrite <- Z.lxor_lor by exact H0. rewrite Z.add_nocarry_lxor by exact H0.
  reflexivity.
Qed.

Lemma mod16_div16 (x : Z) : x mod 16 + 16 * (x / 16) = x.
Proof. pose proof (Z.div_mod x 16 ltac:(lia)). lia. Qed.

Lemma u32_bytes (w : Z) : 0 <= w < 2 ^ 32 ->
  u32_from_le_bytes (w mod 256) ((w / 256) mod 256) ((w / 65536) mod 256)
    ((w / 16777216) mod 256) = w.
Proof.
  intros Hw. unfold u32_from_le_bytes.
  replace 65536 with (256 * 256) by reflexivity.
  replace 16777216 with (256 * 256 * 256) by reflexivity.
  rewrite <- !Z.div_div by lia.
  set (q1 := w / 256). set (q2 := q1 / 256). set (q3 := q2 / 256).
  pose proof (Z.div_mod w 256 ltac:(lia)).
  pose proof (Z.div_mod q1 256 ltac:(lia)).
  pose proof (Z.div_mod q2 256 ltac:(lia)).
  assert (q3 < 256).
  { unfold q3, q2, q1. rewrite !Z.div_div by lia. apply Z.div_lt_upper_bound; lia. }
  assert (0 <= q3).
  { unfold q3, q2, q1. apply Z.div_pos; [apply Z.div_pos; [apply Z.div_pos|]|]; lia. }
  rewrite (Z.mod_small q3 256) by lia. lia.
Qed.

Ltac nib_lo x n Hn :=
  let H := fresh in
  destruct (Nibble_from_u8_spec x) as [n [H Hn]]; rewrite H; cbn [obind].

Ltac nib_hi x n Hn :=
  let H := fresh in
  destruct (Nibble_from_u8_upper_spec x (byte_of_range _ _)) as [n [H Hn]];
  rewrite H; cbn [obind].

Ltac bytes_to_div :=
  unfold opcode in *; rewrite ?byte_of_div, ?u16_byte_div by lia;
  change (2 ^ (8 * 0)) with 1 in *; change (2 ^ (8 * 1)) with 256 in *;
  change (2 ^ (8 * 2)) with 65536 in *; change (2 ^ (8 * 3)) with 16777216 in *;
  rewrite ?Z.div_1_r.

Lemma E_from_to (w : Z) : 0 <= w < 2 ^ 32 ->
  match E_from_u32 w with Done r => E_to_u32 r (opcode w) = w | Panic => False end.
Proof.
  intros Hw. unfold E_from_u32; cbv zeta.
  nib_lo (byte_of w 2) n1 Hn1. nib_hi (byte_of w 2) n2 Hn2.
  nib_lo (byte_of w 3) n3 Hn3. nib_hi (byte_of w 3) n4 Hn4.
  unfold E_to_u32; cbn [E_imm E_func E_rs2 E_rs1 E_rde].
  rewrite !compose_add, Hn1, Hn2, Hn3, Hn4, !mod16_div16.
  bytes_to_div. apply u32_bytes; exact Hw.
Qed.

Lemma land_4095 (x : Z) : Z.land x 4095 = x mod 4096.
Proof. change 4095 with (Z.ones 12). rewrite Z.land_ones by lia. reflexivity. Qed.

Lemma land_1048575 (x : Z) : Z.land x 1048575 = x mod 1048576.
Proof. change 1048575 with (Z.ones 20). rewrite Z.land_ones by lia. reflexivity. Qed.

Lemma mod_mod_small (x m n : Z) : 0 < n -> 0 < m -> (n | m) -> (x mod m) mod n = x mod n.
Proof. intros. apply Z.mod_mod_divide; assumption. Qed.

Lemma R_imm_bytes (x : Z) :
  ((x mod 4096) / 256 mod 256) mod 16 = ((x / 256) mod 256) mod 16.
Proof.
  rewrite (mod_mod_small (x / 256) 256 16) by (try exists 16; lia).
  rewrite (mod_mod_small _ 256 16) by (try exists 16; lia).
  pose proof (Z.div_mod x 4096 ltac:(lia)).
  pose proof (Z.mod_pos_bound x 4096 ltac:(lia)).
  replace x with (4096 * (x / 4096) + x mod 4096) at 2 by lia.
  replace (4096 * (x / 4096) + x mod 4096) with (x mod 4096 + (16 * (x / 4096)) * 256) by lia.
  rewrite Z.div_add by lia. rewrite Z.mul_comm, Z.mod_add by lia.
  reflexivity.
Qed.

Lemma R_from_to (w : Z) : 0 <= w < 2 ^ 32 ->
  match R_from_u32 w with Done r => R_to_u32 r (opcode w) = Done w | Panic => False end.
Proof.
  intros Hw. unfold R_from_u32; cbv zeta.
  nib_hi (byte_of w 2) n2 Hn2. nib_lo (byte_of w 3) n3 Hn3. nib_hi (byte_of w 3) n4 Hn4.
  unfold R_to_u32; cbv zeta; cbn [R_imm R_rs2 R_rs1 R_rde].
  nib_lo (u16_byte (Z.land (Z.shiftr w 8) 4095) 1) n1 Hn1.
  f_equal. rewrite !compose_add, Hn1, Hn2, Hn3, Hn4, mod16_div16.
  rewrite land_4095, Z.shiftr_div_pow2 by lia.
  bytes_to_div.
  rewrite R_imm_bytes.
  change (2 ^ 8) with 256.
  rewrite (mod_mod_small (w / 256) 4096 256) by (try exists 16; lia).
  rewrite (Z.div_div w 256 256) by lia. change (256 * 256) with 65536.
  rewrite mod16_div16. apply u32_bytes; exact Hw.
Qed.

Lemma u16_split (b1 b2 : Z) : 0 <= b1 < 256 -> 0 <= b2 < 256 ->
  u16_byte (b1 + 256 * b2) 0 = b1 /\ u16_byte (b1 + 256 * b2) 1 = b2.
Proof.
  intros H1 H2. rewrite !u16_byte_div by lia.
  change (2 ^ (8 * 0)) with 1; change (2 ^ (8 * 1)) with 256.
  rewrite Z.div_1_r. split.
  - rewrite Z.mul_comm, Z.mod_add by lia. apply Z.mod_small; lia.
  - rewrite Z.mul_comm, Z.div_add, Z.div_small, Z.add_0_l by lia.
    apply Z.mod_small; lia.
Qed.

Lemma M_from_to (w : Z) : 0 <= w < 2 ^ 32 ->
  match M_from_u32 w with Done r => M_to_u32 r (opcode w) = w | Panic => False end.
Proof.
  intros Hw. unfold M_from_u32; cbv zeta.
  nib_lo (byte_of w 3) n3 Hn3. nib_hi (byte_of w 3) n4 Hn4.
  unfold M_to_u32; cbn [M_imm M_rs1 M_rde].
  rewrite compose_add, Hn3, Hn4, mod16_div16.
  unfold u16_from_le_bytes.
  destruct (u16_split (byte_of w 1) (byte_of w 2) (byte_of_range _ _) (byte_of_range _ _))
    as [Hb1 Hb2].
  rewrite Hb1, Hb2. bytes_to_div. apply u32_bytes; exact Hw.
Qed.

Lemma F_from_to (w : Z) : 0 <= w < 2 ^ 32 ->
  match F_from_u32 w with Done r => F_to_u32 r (opcode w) = w | Panic => False end.
Proof.
  intros Hw. unfold F_from_u32; cbv zeta.
  nib_lo (byte_of w 3) n3 Hn3. nib_hi (byte_of w 3) n4 Hn4.
  unfold F_to_u32; cbn [F_imm F_func F_rde].
  rewrite compose_add, Hn3, Hn4, mod16_div16.
  unfold u16_from_le_bytes.
  destruct (u16_split (byte_of w 1) (byte_of w 2) (byte_of_range _ _) (byte_of_range _ _))
    as [Hb1 Hb2].
  rewrite Hb1, Hb2. bytes_to_div. apply u32_bytes; exact Hw.
Qed.

Lemma B_from_to (w : Z) : 0 <= w < 2 ^ 32 ->
  match B_from_u32 w with Done r => B_to_u32 r (opcode w) = w | Panic => False end.
Proof.
  intros Hw. unfold B_from_u32; cbv zeta.
  nib_hi (byte_of w 3) n4 Hn4.
  unfold B_to_u32; cbn [B_imm B_func].
  rewrite land_1048575, !Z.shiftl_mul_pow2, Z.shiftr_div_pow2 by lia.
  rewrite Hn4. bytes_to_div.
  change (2 ^ 8) with 256. change (2 ^ 28) with 268435456. unfold u32_max.
  change (2 ^ 32) with 4294967296.
  pose proof (Z.mod_pos_bound (w / 256) 1048576 ltac:(lia)).
  pose proof (Z.div_mod w 256 ltac:(lia)).
  pose proof (Z.div_mod (w / 256) 1048576 ltac:(lia)).
  pose proof (Z.mod_pos_bound w 256 ltac:(lia)).
  assert (Hq : (w / 16777216) mod 256 / 16 = w / 256 / 1048576).
  { rewrite Z.mod_small.
    - rewrite !Z.div_div by lia. reflexivity.
    - split; [apply Z.div_pos; lia|]. apply Z.div_lt_upper_bound; lia. }
  rewrite Hq.
  assert (0 <= w / 256 / 1048576 < 16).
  { rewrite Z.div_div by lia. split; [apply Z.div_pos; lia|].
    apply Z.div_lt_upper_bound; lia. }
  rewrite (Z.mod_small ((w / 256) mod 1048576 * 256)) by lia.
  rewrite (Z.mod_small (w / 256 / 1048576 * 268435456)) by lia.
  change 256 with (2 ^ 8) at 3. rewrite lor_shift_add by lia.
  change 268435456 with (2 ^ 28). rewrite lor_shift_add by lia.
  lia.
Qed.

(** C1: for each of the formats E, R, M, F and B and every 32-bit word [w],
    decoding [w] with the format's [from_u32] and re-encoding the record with
    [to_u32] and the opcode byte of [w] gives back [w]. *)
Theorem format_decode_encode_roundtrip (w : Z) : 0 <= w < 2 ^ 32 ->
  match E_from_u32 w with Done r => E_to_u32 r (opcode w) = w | Panic => False end /\
  match R_from_u32 w with Done r => R_to_u32 r (opcode w) = Done w | Panic => False end /\
  match M_from_u32 w with Done r => M_to_u32 r (opcode w) = w | Panic => False end /\
  match F_from_u32 w with Done r => F_to_u32 r (opcode w) = w | Panic => False end /\
  match B_from_u32 w with Done r => B_to_u32 r (opcode w) = w | Panic => False end.
Proof.
  intros Hw. split; [|split; [|split; [|split]]].
  - apply E_from_to; exact Hw.
  - apply R_from_to; exact Hw.
  - apply M_from_to; exact Hw.
  - apply F_from_to; exact Hw.
  - apply B_from_to; exact Hw.
Qed.

Lemma format_decode_encode_roundtrip_witness :
  0 <= 3735928559 < 2 ^ 32 /\
  match B_from_u32 3735928559 with
  | Done r => B_to_u32 r (opcode 3735928559) = 3735928559
  | Panic => False
  end.
Proof.
  split; [lia|].
  apply (format_decode_encode_roundtrip 3735928559 ltac:(lia)).
Defined.

(** ** Carry-aware addition and subtraction *)

Lemma mod_64_cases (z : Z) : - 2 ^ 64 <= z < 2 ^ 64 ->
  z mod 2 ^ 64 = if z <? 0 then z + 2 ^ 64 else z.
Proof.
  intros Hz. destruct (Z.ltb_spec z 0).
  - symmetry. apply Z.mod_unique with (-1); lia.
  - symmetry. apply Z.mod_unique with 0; lia.
Qed.

Lemma mod_64_cases_pos (z : Z) : 0 <= z < 2 * 2 ^ 64 ->
  z mod 2 ^ 64 = if z <? 2 ^ 64 then z else z - 2 ^ 64.
Proof.
  intros Hz. destruct (Z.ltb_spec z (2 ^ 64)).
  - symmetry. apply Z.mod_unique with 0; lia.
  - symmetry. apply Z.mod_unique with 1; lia.
Qed.

Ltac case_bools :=
  repeat match goal with
  | |- context [Z.ltb ?x ?y] => destruct (Z.ltb_spec x y)
  | |- context [Z.leb ?x ?y] => destruct (Z.leb_spec x y)
  end.

Lemma as_i64_cases (u : Z) : 0 <= u < 2 ^ 64 ->
  (u < 2 ^ 63 /\ as_i64 u = u) \/ (2 ^ 63 <= u /\ as_i64 u = u - 2 ^ 64).
Proof. intros Hu. unfold as_i64. case_bools; lia. Qed.

Lemma i64_wrap_cases (z : Z) : - 2 ^ 64 <= z < 2 ^ 64 ->
  (z < - 2 ^ 63 /\ as_i64 (z mod 2 ^ 64) = z + 2 ^ 64) \/
  (- 2 ^ 63 <= z < 2 ^ 63 /\ as_i64 (z mod 2 ^ 64) = z) \/
  (2 ^ 63 <= z /\ as_i64 (z mod 2 ^ 64) = z - 2 ^ 64).
Proof.
  intros Hz. rewrite mod_64_cases by exact Hz. unfold as_i64.
  destruct (Z.ltb_spec z 0); case_bools; lia.
Qed.

Lemma i64_in_range_spec (z : Z) :
  i64_in_range z = true <-> - 2 ^ 63 <= z < 2 ^ 63.
Proof.
  unfold i64_in_range. rewrite andb_true_iff, Z.leb_le, Z.ltb_lt. reflexivity.
Qed.

Lemma i64_in_range_false (z : Z) :
  i64_in_range z = false <-> ~ (- 2 ^ 63 <= z < 2 ^ 63).
Proof.
  rewrite <- i64_in_range_spec. destruct (i64_in_range z); intuition congruence.
Qed.

(** Deciding [i64_in_range] on the terms of the goal *)
Ltac range_cases :=
  repeat match goal with
  | |- context [i64_in_range ?z] =>
      let H := fresh "Hr" in
      destruct (i64_in_range z) eqn:H;
      [apply i64_in_range_spec in H | apply i64_in_range_false in H]
  end.

Lemma signed_two_steps_add (x y c : Z) :
  - 2 ^ 63 <= x < 2 ^ 63 -> - 2 ^ 63 <= y < 2 ^ 63 -> 0 <= c <= 1 ->
  (let (v, o1) := i64_overflowing_add x y in
   let (_, o2) := i64_overflowing_add v c in xorb o1 o2) =
  negb (i64_in_range (x + y + c)).
Proof.
  intros Hx Hy Hc. unfold i64_overflowing_add.
  destruct (i64_wrap_cases (x + y) ltac:(lia)) as [[Hs ->]|[[Hs ->]|[Hs ->]]];
  range_cases; cbn [negb xorb]; first [reflexivity | exfalso; lia].
Qed.

Lemma signed_two_steps_sub (x y c : Z) :
  - 2 ^ 63 <= x < 2 ^ 63 -> - 2 ^ 63 <= y < 2 ^ 63 -> 0 <= c <= 1 ->
  (let (v, o1) := i64_overflowing_sub x y in
   let (_, o2) := i64_overflowing_sub v c in xorb o1 o2) =
  negb (i64_in_range (x - y - c)).
Proof.
  intros Hx Hy Hc. unfold i64_overflowing_sub.
  destruct (i64_wrap_cases (x - y) ltac:(lia)) as [[Hs ->]|[[Hs ->]|[Hs ->]]];
  range_cases; cbn [negb xorb]; first [reflexivity | exfalso; lia].
Qed.

Lemma as_i64_range (u : Z) : 0 <= u < 2 ^ 64 -> - 2 ^ 63 <= as_i64 u < 2 ^ 63.
Proof. intros Hu. unfold as_i64. case_bools; lia. Qed.

Lemma bool_as_int_range (c : bool) : 0 <= bool_as_int c <= 1.
Proof. destruct c; simpl; lia. Qed.

Lemma unsigned_two_steps_add (a b c : Z) :
  0 <= a < 2 ^ 64 -> 0 <= b < 2 ^ 64 -> 0 <= c <= 1 ->
  (let (v, o1) := u64_overflowing_add a b in
   let (v', o2) := u64_overflowing_add v c in (v', o1 || o2)) =
  ((a + b + c) mod 2 ^ 64, 2 ^ 64 <=? a + b + c).
Proof.
  intros Ha Hb Hc. unfold u64_overflowing_add.
  rewrite Zplus_mod_idemp_l. f_equal.
  rewrite (mod_64_cases_pos (a + b)) by lia.
  case_bools; cbn [orb]; first [reflexivity | exfalso; lia].
Qed.

Lemma unsigned_two_steps_sub (a b c : Z) :
  0 <= a < 2 ^ 64 -> 0 <= b < 2 ^ 64 -> 0 <= c <= 1 ->
  (let (v, o1) := u64_overflowing_sub a b in
   let (v', o2) := u64_overflowing_sub v c in (v', o1 || o2)) =
  ((a - b - c) mod 2 ^ 64, a - b - c <? 0).
Proof.
  intros Ha Hb Hc. unfold u64_overflowing_sub.
  rewrite Zminus_mod_idemp_l. f_equal.
  rewrite (mod_64_cases (a - b)) by lia.
  case_bools; cbn [orb]; first [reflexivity | exfalso; lia].
Qed.

Lemma add_fields (a b : Z) (carry : bool) :
  add a b carry =
  mkAddResult (fst (carrying_add_u a b carry)) (snd (carrying_add_u a b carry))
    (snd (carrying_add_i a b carry)).
Proof.
  unfold add. destruct (carrying_add_u a b carry), (carrying_add_i a b carry).
  reflexivity.
Qed.

Lemma sub_fields (a b : Z) (carry : bool) :
  sub a b carry =
  mkAddResult (fst (carrying_sub_u a b carry)) (snd (carrying_sub_u a b carry))
    (snd (carrying_sub_i a b carry)).
Proof.
  unfold sub. destruct (carrying_sub_u a b carry), (carrying_sub_i a b carry).
  reflexivity.
Qed.

Lemma signed_flag_add (a b : Z) (carry : bool) :
  snd (carrying_add_i a b carry) = (let (o1, o2) := add_signed_steps a b carry in xorb o1 o2).
Proof.
  unfold carrying_add_i, add_signed_steps.
  destruct (i64_overflowing_add (as_i64 a) (as_i64 b)) as [v o1].
  destruct (i64_overflowing_add v (bool_as_int carry)). reflexivity.
Qed.

Lemma signed_flag_sub (a b : Z) (carry : bool) :
  snd (carrying_sub_i a b carry) = (let (o1, o2) := sub_signed_steps a b carry in xorb o1 o2).
Proof.
  unfold carrying_sub_i, sub_signed_steps.
  destruct (i64_overflowing_sub (as_i64 a) (as_i64 b)) as [v o1].
  destruct (i64_overflowing_sub v (bool_as_int carry)). reflexivity.
Qed.

Lemma add_signed_steps_xor (a b : Z) (carry : bool) :
  0 <= a < 2 ^ 64 -> 0 <= b < 2 ^ 64 ->
  (let (o1, o2) := add_signed_steps a b carry in xorb o1 o2) =
  negb (i64_in_range (as_i64 a + as_i64 b + bool_as_int carry)).
Proof.
  intros Ha Hb. rewrite <- signed_two_steps_add
    by (apply as_i64_range || apply bool_as_int_range; assumption).
  unfold add_signed_steps.
  destruct (i64_overflowing_add (as_i64 a) (as_i64 b)) as [v o1].
  destruct (i64_overflowing_add v (bool_as_int carry)). reflexivity.
Qed.

Lemma sub_signed_steps_xor (a b : Z) (carry : bool) :
  0 <= a < 2 ^ 64 -> 0 <= b < 2 ^ 64 ->
  (let (o1, o2) := sub_signed_steps a b carry in xorb o1 o2) =
  negb (i64_in_range (as_i64 a - as_i64 b - bool_as_int carry)).
Proof.
  intros Ha Hb. rewrite <- signed_two_steps_sub
    by (apply as_i64_range || apply bool_as_int_range; assumption).
  unfold sub_signed_steps.
  destruct (i64_overflowing_sub (as_i64 a) (as_i64 b)) as [v o1].
  destruct (i64_overflowing_sub v (bool_as_int carry)). reflexivity.
Qed.

Lemma unsigned_flag_add (a b : Z) (carry : bool) :
  snd (carrying_add_u a b carry) = (let (o1, o2) := add_unsigned_steps a b carry in o1 || o2).
Proof.
  unfold carrying_add_u, add_unsigned_steps.
  destruct (u64_overflowing_add a b) as [v o1].
  destruct (u64_overflowing_add v (bool_as_int carry)). reflexivity.
Qed.

Lemma unsigned_flag_sub (a b : Z) (carry : bool) :
  snd (carrying_sub_u a b carry) = (let (o1, o2) := sub_unsigned_steps a b carry in o1 || o2).
Proof.
  unfold carrying_sub_u, sub_unsigned_steps.
  destruct (u64_overflowing_sub a b) as [v o1].
  destruct (u64_overflowing_sub v (bool_as_int carry)). reflexivity.
Qed.

(** C3 (as amended): [add] returns the wrapped sum a + b + carry; its unsigned
    flag is set iff either unsigned step overflowed, that is iff
    a + b + carry >= 2^64; its signed flag is the exclusive or of the two
    signed step flags, that is it is set iff the exact signed value
    a + b + carry lies outside [-2^63, 2^63).  The same holds for [sub] with
    a - b - borrow (unsigned flag iff a - b - borrow < 0). *)
Theorem add_sub_overflow_flags (a b : Z) (carry : bool) :
  0 <= a < 2 ^ 64 -> 0 <= b < 2 ^ 64 ->
  (let r := add a b carry in
   let c := bool_as_int carry in
   result r = (a + b + c) mod 2 ^ 64 /\
   unsigned_overflow r = (let (o1, o2) := add_unsigned_steps a b carry in o1 || o2) /\
   unsigned_overflow r = (2 ^ 64 <=? a + b + c) /\
   signed_overflow r = (let (o1, o2) := add_signed_steps a b carry in xorb o1 o2) /\
   signed_overflow r = negb (i64_in_range (as_i64 a + as_i64 b + c))) /\
  (let r := sub a b carry in
   let c := bool_as_int carry in
   result r = (a - b - c) mod 2 ^ 64 /\
   unsigned_overflow r = (let (o1, o2) := sub_unsigned_steps a b carry in o1 || o2) /\
   unsigned_overflow r = (a - b - c <? 0) /\
   signed_overflow r = (let (o1, o2) := sub_signed_steps a b carry in xorb o1 o2) /\
   signed_overflow r = negb (i64_in_range (as_i64 a - as_i64 b - c))).
Proof.
  intros Ha Hb. pose proof (bool_as_int_range carry) as Hc.
  split; cbv zeta.
  - rewrite add_fields; cbn [result unsigned_overflow signed_overflow].
    rewrite unsigned_flag_add, signed_flag_add, add_signed_steps_xor by assumption.
    rewrite <- unsigned_flag_add.
    unfold carrying_add_u. rewrite unsigned_two_steps_add by assumption.
    cbn [fst snd]. repeat split; reflexivity.
  - rewrite sub_fields; cbn [result unsigned_overflow signed_overflow].
    rewrite unsigned_flag_sub, signed_flag_sub, sub_signed_steps_xor by assumption.
    rewrite <- unsigned_flag_sub.
    unfold carrying_sub_u. rewrite unsigned_two_steps_sub by assumption.
    cbn [fst snd]. repeat split; reflexivity.
Qed.

Lemma add_sub_overflow_flags_witness :
  0 <= 2 ^ 63 < 2 ^ 64 /\ 0 <= 2 ^ 64 - 1 < 2 ^ 64 /\
  signed_overflow (add (2 ^ 63) (2 ^ 64 - 1) true) =
    negb (i64_in_range (as_i64 (2 ^ 63) + as_i64 (2 ^ 64 - 1) + bool_as_int true)).
Proof.
  split; [lia|]. split; [lia|].
  apply (add_sub_overflow_flags (2 ^ 63) (2 ^ 64 - 1) true ltac:(lia) ltac:(lia)).
Defined.

(** C3 as stated says the signed flag is set when either signed step
    overflows.  At a = i64::MIN, b = -1, carry = true both signed steps
    overflow (MIN + -1 wraps to MAX, MAX + 1 wraps to MIN) and the flag is
    clear; likewise for [sub] at a = i64::MAX, b = -1, borrow = true. *)
Lemma add_signed_flag_not_either_step :
  add_signed_steps (2 ^ 63) (2 ^ 64 - 1) true = (true, true) /\
  signed_overflow (add (2 ^ 63) (2 ^ 64 - 1) true) = false /\
  sub_signed_steps (2 ^ 63 - 1) (2 ^ 64 - 1) true = (true, true) /\
  signed_overflow (sub (2 ^ 63 - 1) (2 ^ 64 - 1) true) = false.
Proof. vm_compute. repeat split; reflexivity. Qed.

(** ** Checked division *)

Lemma as_i64_as_u64 (v : Z) : - 2 ^ 63 <= v < 2 ^ 63 -> as_i64 (as_u64 v) = v.
Proof.
  intros Hv. unfold as_u64. rewrite mod_64_cases by lia. unfold as_i64.
  case_bools; lia.
Qed.

Lemma as_u64_as_i64 (u : Z) : 0 <= u < 2 ^ 64 -> as_u64 (as_i64 u) = u.
Proof.
  intros Hu. unfold as_u64, as_i64. case_bools.
  - apply Z.mod_small; lia.
  - rewrite mod_64_cases by lia. case_bools; lia.
Qed.

Lemma as_i64_inj (u v : Z) : 0 <= u < 2 ^ 64 -> 0 <= v < 2 ^ 64 ->
  as_i64 u = as_i64 v -> u = v.
Proof.
  intros Hu Hv H. rewrite <- (as_u64_as_i64 u Hu), <- (as_u64_as_i64 v Hv), H.
  reflexivity.
Qed.

Lemma i64_div_fails_spec (a b : Z) : 0 <= a < 2 ^ 64 -> 0 <= b < 2 ^ 64 ->
  i64_div_fails (as_i64 a) (as_i64 b) = true <-> b = 0 \/ (a = 2 ^ 63 /\ b = 2 ^ 64 - 1).
Proof.
  intros Ha Hb. unfold i64_div_fails.
  rewrite orb_true_iff, andb_true_iff, !Z.eqb_eq.
  unfold as_i64. case_bools; lia.
Qed.

Lemma option_u64_None (v : option Z) : option_u64 v = None <-> v = None.
Proof. destruct v; simpl; split; congruence. Qed.

Lemma rem_range (x y : Z) : y <> 0 -> - 2 ^ 63 <= x < 2 ^ 63 -> - 2 ^ 63 <= y < 2 ^ 63 ->
  - 2 ^ 63 < Z.rem x y < 2 ^ 63.
Proof.
  intros Hy Hx Hy'. pose proof (Z.rem_bound_abs x y Hy). lia.
Qed.

Lemma rem_euclid_spec (x y : Z) : y <> 0 -> - 2 ^ 63 <= x < 2 ^ 63 -> - 2 ^ 63 <= y < 2 ^ 63 ->
  i64_rem_euclid x y = x mod Z.abs y.
Proof.
  intros Hy Hx Hy'. unfold i64_rem_euclid.
  pose proof (Z.rem_bound_abs x y Hy) as Hb.
  pose proof (Z.quot_rem' x y) as Hq.
  destruct (Z.ltb_spec (Z.rem x y) 0) as [Hr|Hr].
  - unfold i64_wrapping_add, i64_wrapping_abs.
    assert (Hx0 : x < 0).
    { destruct (Z.lt_ge_cases x 0); [assumption|].
      pose proof (Z.rem_nonneg x y Hy ltac:(lia)). lia. }
    assert (Habs : as_i64 (Z.abs y mod 2 ^ 64) = if Z.abs y =? 2 ^ 63 then - 2 ^ 63 else Z.abs y).
    { rewrite Z.mod_small by lia. unfold as_i64. case_bools; destruct (Z.eqb_spec (Z.abs y) (2 ^ 63)); lia. }
    rewrite Habs.
    assert (Hm : x mod Z.abs y = Z.rem x y + Z.abs y).
    { symmetry. destruct (Z.lt_ge_cases y 0).
      - apply Z.mod_unique with (- Z.quot x y - 1); lia.
      - apply Z.mod_unique with (Z.quot x y - 1); lia. }
    rewrite Hm. destruct (Z.eqb_spec (Z.abs y) (2 ^ 63)).
    + rewrite mod_64_cases by lia. unfold as_i64. case_bools; lia.
    + rewrite mod_64_cases by lia. unfold as_i64. case_bools; lia.
  - destruct (Z.lt_ge_cases y 0).
    + apply Z.mod_unique with (- Z.quot x y); lia.
    + apply Z.mod_unique with (Z.quot x y); lia.
Qed.

Lemma checked_signed_None (f : Z -> Z -> Z) (a b : Z) :
  0 <= a < 2 ^ 64 -> 0 <= b < 2 ^ 64 ->
  option_u64 (if i64_div_fails (as_i64 a) (as_i64 b) then None
              else Some (f (as_i64 a) (as_i64 b))) = None <->
  b = 0 \/ (a = 2 ^ 63 /\ b = 2 ^ 64 - 1).
Proof.
  intros Ha Hb. rewrite option_u64_None, <- (i64_div_fails_spec a b Ha Hb).
  destruct (i64_div_fails (as_i64 a) (as_i64 b)); split; congruence.
Qed.

(** C7: [idiv], [rem] and [r_mod] fail exactly on a zero divisor or on
    (i64::MIN, -1), [udiv] exactly on a zero divisor; [rem] is the truncating
    remainder and [r_mod] the Euclidean one, which is never negative. *)
Theorem checked_division_spec (a b : Z) :
  0 <= a < 2 ^ 64 -> 0 <= b < 2 ^ 64 ->
  (idiv a b = None <-> b = 0 \/ (a = 2 ^ 63 /\ b = 2 ^ 64 - 1)) /\
  (rem a b = None <-> b = 0 \/ (a = 2 ^ 63 /\ b = 2 ^ 64 - 1)) /\
  (r_mod a b = None <-> b = 0 \/ (a = 2 ^ 63 /\ b = 2 ^ 64 - 1)) /\
  (udiv a b = None <-> b = 0) /\
  (forall r, rem a b = Some r -> as_i64 r = Z.rem (as_i64 a) (as_i64 b)) /\
  (forall r, r_mod a b = Some r ->
     as_i64 r = as_i64 a mod Z.abs (as_i64 b) /\ 0 <= as_i64 r < Z.abs (as_i64 b)).
Proof.
  intros Ha Hb.
  pose proof (as_i64_range a Ha) as Ra. pose proof (as_i64_range b Hb) as Rb.
  assert (Hnz : i64_div_fails (as_i64 a) (as_i64 b) = false -> as_i64 b <> 0).
  { unfold i64_div_fails. intros H. apply orb_false_iff in H. destruct H as [H _].
    apply Z.eqb_neq in H. exact H. }
  split; [|split; [|split; [|split; [|split]]]].
  - apply checked_signed_None; assumption.
  - apply checked_signed_None; assumption.
  - apply checked_signed_None; assumption.
  - unfold udiv, u64_checked_div. destruct (Z.eqb_spec b 0); split; congruence.
  - intros r. unfold rem, i64_checked_rem.
    destruct (i64_div_fails (as_i64 a) (as_i64 b)) eqn:Hf; [discriminate|].
    simpl. intros Hr. injection Hr as <-.
    apply as_i64_as_u64. pose proof (rem_range _ _ (Hnz eq_refl) Ra Rb). lia.
  - intros r. unfold r_mod, i64_checked_rem_euclid.
    destruct (i64_div_fails (as_i64 a) (as_i64 b)) eqn:Hf; [discriminate|].
    simpl. intros Hr. injection Hr as <-.
    specialize (Hnz eq_refl).
    rewrite rem_euclid_spec by assumption.
    pose proof (Z.mod_pos_bound (as_i64 a) (Z.abs (as_i64 b)) ltac:(lia)).
    rewrite as_i64_as_u64 by lia. split; [reflexivity|lia].
Qed.

Lemma checked_division_spec_witness :
  0 <= 2 ^ 64 - 7 < 2 ^ 64 /\ 0 <= 3 < 2 ^ 64 /\
  (forall r, r_mod (2 ^ 64 - 7) 3 = Some r ->
     as_i64 r = as_i64 (2 ^ 64 - 7) mod Z.abs (as_i64 3) /\
     0 <= as_i64 r < Z.abs (as_i64 3)).
Proof.
  split; [lia|]. split; [lia|].
  apply (checked_division_spec (2 ^ 64 - 7) 3 ltac:(lia) ltac:(lia)).
Defined.

Example rem_m7_3 : rem (2 ^ 64 - 7) 3 = Some (2 ^ 64 - 1).
Proof. reflexivity. Qed.
Example mod_m7_3 : r_mod (2 ^ 64 - 7) 3 = Some 2.
Proof. reflexivity. Qed.
Example idiv_min_m1 : idiv (2 ^ 63) (2 ^ 64 - 1) = None.
Proof. reflexivity. Qed.

(** ** Sign extension *)

(** C8: for every BIT_SIZE in 1..=64 and every 64-bit [v], [sign_extend]
    returns the 64-bit pattern of the two's-complement value held in the low
    BIT_SIZE bits of [v]; e.g. 0xFF, 0x7F at 8 bits and 0x8000 at 16 bits. *)
Theorem sign_extend_spec (BIT_SIZE v : Z) :
  1 <= BIT_SIZE <= 64 -> 0 <= v < 2 ^ 64 ->
  sign_extend BIT_SIZE v = as_u64 (low_bits_signed BIT_SIZE v) /\
  sign_extend 8 255 = 18446744073709551615 /\
  sign_extend 8 127 = 127 /\
  sign_extend 16 32768 = 18446744073709518848.
Proof.
  intros Hn Hv. split; [|vm_compute; repeat split; reflexivity].
  unfold sign_extend, low_bits_signed. cbv zeta.
  set (s := 64 - BIT_SIZE).
  assert (Hs : 0 <= s <= 63) by lia.
  assert (H64 : 2 ^ 64 = 2 ^ BIT_SIZE * 2 ^ s) by (rewrite <- Z.pow_add_r by lia; f_equal; lia).
  assert (H63 : 2 ^ 63 = 2 ^ (BIT_SIZE - 1) * 2 ^ s) by (rewrite <- Z.pow_add_r by lia; f_equal; lia).
  assert (Hn2 : 2 ^ BIT_SIZE = 2 * 2 ^ (BIT_SIZE - 1)).
  { rewrite <- Z.pow_succ_r by lia. f_equal. lia. }
  assert (HP : 0 < 2 ^ s) by (apply Z.pow_pos_nonneg; lia).
  assert (HQ : 0 < 2 ^ (BIT_SIZE - 1)) by (apply Z.pow_pos_nonneg; lia).
  rewrite Z.shiftl_mul_pow2, Z.shiftr_div_pow2 by lia.
  set (x := v mod 2 ^ BIT_SIZE).
  assert (Hx : 0 <= x < 2 ^ BIT_SIZE) by (apply Z.mod_pos_bound; lia).
  assert (Hm : v * 2 ^ s mod 2 ^ 64 = x * 2 ^ s).
  { rewrite H64. apply Z.mul_mod_distr_r; lia. }
  rewrite Hm. f_equal.
  unfold as_i64. rewrite H63, H64, Hn2.
  rewrite Hn2 in Hx.
  set (P := 2 ^ s) in *. set (Q := 2 ^ (BIT_SIZE - 1)) in *.
  destruct (Z.ltb_spec (x * P) (Q * P)) as [Hl|Hl];
  destruct (Z.ltb_spec x Q) as [Hl'|Hl'].
  - rewrite Z.div_mul by lia. reflexivity.
  - exfalso. nia.
  - exfalso. nia.
  - replace (x * P - 2 * Q * P) with ((x - 2 * Q) * P) by ring.
    rewrite Z.div_mul by lia. reflexivity.
Qed.

Lemma sign_extend_spec_witness :
  1 <= 12 <= 64 /\ 0 <= 2048 < 2 ^ 64 /\
  sign_extend 12 2048 = as_u64 (low_bits_signed 12 2048).
Proof.
  split; [lia|]. split; [lia|].
  apply (sign_extend_spec 12 2048 ltac:(lia) ltac:(lia)).
Defined.

(** ** Decoding *)

(** C6: [try_from_instruction] returns [None] on opcode 0xFF, on opcode 0x0A
    whose func nibble is not a branch condition, and on opcode 0x01 with func
    0 whose interrupt immediate has a non-zero high byte. *)
Theorem try_from_instruction_rejects (w : Z) :
  (opcode w = 255 -> try_from_instruction w = Done None) /\
  (forall b, opcode w = 10 -> B_from_u32 w = Done b ->
     BranchCond_try_from_nibble (B_func b) = None ->
     try_from_instruction w = Done None) /\
  (forall f, opcode w = 1 -> F_from_u32 w = Done f -> F_func f = X0 ->
     u16_byte (F_imm f) 1 <> 0 ->
     try_from_instruction w = Done None).
Proof.
  split; [|split].
  - intros Hop. unfold try_from_instruction. rewrite Hop. reflexivity.
  - intros b Hop Hb Hcc. unfold try_from_instruction. rewrite Hop, Hb.
    cbn -[BranchCond_try_from_nibble]. rewrite Hcc. reflexivity.
  - intros f Hop Hf Hfunc Himm. unfold try_from_instruction. rewrite Hop, Hf.
    cbn [obind]. cbv zeta. rewrite Hfunc. unfold Interrupt_try_from_u16.
    apply Z.eqb_neq in Himm. rewrite Himm. reflexivity.
Qed.

Lemma try_from_instruction_rejects_witness :
  opcode 1879048202 = 10 /\ B_from_u32 1879048202 = Done (mkB 0 X7) /\
  BranchCond_try_from_nibble X7 = None /\
  try_from_instruction 1879048202 = Done None.
Proof.
  split; [reflexivity|]. split; [reflexivity|]. split; [reflexivity|].
  apply (proj1 (proj2 (try_from_instruction_rejects 1879048202)) (mkB 0 X7));
    reflexivity.
Defined.

(** ** Totality *)

Lemma Nibble_from_u8_Done (v : Z) : exists n, Nibble_from_u8 v = Done n.
Proof. destruct (Nibble_from_u8_spec v) as [n [H _]]. eauto. Qed.

Lemma Nibble_from_u8_upper_mod (v : Z) :
  Nibble_from_u8_upper v = Nibble_from_u8_upper (v mod 256).
Proof.
  unfold Nibble_from_u8_upper. rewrite <- land_255_mod, <- Z.land_assoc.
  reflexivity.
Qed.

Lemma Nibble_from_u8_upper_Done (v : Z) : exists n, Nibble_from_u8_upper v = Done n.
Proof.
  rewrite Nibble_from_u8_upper_mod.
  destruct (Nibble_from_u8_upper_spec (v mod 256)) as [n [H _]].
  - apply Z.mod_pos_bound; lia.
  - eauto.
Qed.

Ltac nib_done :=
  repeat match goal with
  | |- context [Nibble_from_u8 ?x] =>
      let n := fresh "n" in let H := fresh "Hn" in
      destruct (Nibble_from_u8_Done x) as [n H]; rewrite H; cbn [obind]
  | |- context [Nibble_from_u8_upper ?x] =>
      let n := fresh "n" in let H := fresh "Hn" in
      destruct (Nibble_from_u8_upper_Done x) as [n H]; rewrite H; cbn [obind]
  end.

Lemma E_from_u32_Done (w : Z) : exists r, E_from_u32 w = Done r.
Proof. unfold E_from_u32; cbv zeta. nib_done. eauto. Qed.
Lemma R_from_u32_Done (w : Z) : exists r, R_from_u32 w = Done r.
Proof. unfold R_from_u32; cbv zeta. nib_done. eauto. Qed.
Lemma M_from_u32_Done (w : Z) : exists r, M_from_u32 w = Done r.
Proof. unfold M_from_u32; cbv zeta. nib_done. eauto. Qed.
Lemma F_from_u32_Done (w : Z) : exists r, F_from_u32 w = Done r.
Proof. unfold F_from_u32; cbv zeta. nib_done. eauto. Qed.
Lemma B_from_u32_Done (w : Z) : exists r, B_from_u32 w = Done r.
Proof. unfold B_from_u32; cbv zeta. nib_done. eauto. Qed.
Lemma R_to_u32_Done (r : R) (op : Z) : exists w, R_to_u32 r op = Done w.
Proof. unfold R_to_u32; cbv zeta. nib_done. eauto. Qed.

Lemma opcode_range (w : Z) : 0 <= opcode w < 256.
Proof. apply byte_of_range. Qed.

(** Case split on the integer [x] known to lie in [lo .. hi]. *)
Ltac zcases x lo hi :=
  lazymatch eval cbv in (lo <? hi) with
  | true =>
      let H := fresh "Hc" in
      destruct (Z.eq_dec x lo) as [H|H];
      [ subst x
      | let lo' := eval cbv in (lo + 1) in
        assert (lo' <= x) by lia; zcases x lo' hi ]
  | false => assert (x = lo) by lia; subst x
  end.

Ltac close_no_panic :=
  unfold otry, yield, reject, unreachable;
  repeat match goal with
  | |- context [match ?o with Some _ => _ | None => _ end] => destruct o
  end;
  try discriminate.

Lemma try_from_instruction_no_panic (w : Z) : try_from_instruction w <> Panic.
Proof.
  unfold try_from_instruction; cbv zeta.
  destruct (E_from_u32_Done w) as [er Her]; rewrite Her.
  destruct (R_from_u32_Done w) as [rr Hrr]; rewrite Hrr.
  destruct (M_from_u32_Done w) as [mr Hmr]; rewrite Hmr.
  destruct (F_from_u32_Done w) as [fr Hfr]; rewrite Hfr.
  destruct (B_from_u32_Done w) as [br Hbr]; rewrite Hbr.
  cbn [obind]. pose proof (opcode_range w) as Hop.
  remember (opcode w) as opc eqn:Hopc. clear Hopc.
  unfold in_range.
  destruct (opc =? 1) eqn:H1.
  { destruct (F_func fr); close_no_panic. }
  destruct ((2 <=? opc) && (opc <=? 5)) eqn:H2.
  { apply andb_true_iff in H2; destruct H2 as [Ha Hb];
    apply Z.leb_le in Ha; apply Z.leb_le in Hb. zcases opc 2 5; close_no_panic. }
  destruct ((6 <=? opc) && (opc <=? 9)) eqn:H3.
  { apply andb_true_iff in H3; destruct H3 as [Ha Hb];
    apply Z.leb_le in Ha; apply Z.leb_le in Hb. zcases opc 6 9; close_no_panic. }
  destruct (opc =? 10) eqn:H4; [close_no_panic|].
  destruct (opc =? 11) eqn:H5; [close_no_panic|].
  destruct (opc =? 12) eqn:H6; [close_no_panic|].
  destruct (opc =? 13) eqn:H7; [close_no_panic|].
  destruct (opc =? 14) eqn:H8; [close_no_panic|].
  destruct (opc =? 16) eqn:H9; [close_no_panic|].
  destruct ((17 <=? opc) && (opc <=? 27)) eqn:H10.
  { apply andb_true_iff in H10; destruct H10 as [Ha Hb];
    apply Z.leb_le in Ha; apply Z.leb_le in Hb. zcases opc 17 27; close_no_panic. }
  destruct (opc =? 30) eqn:H11; [close_no_panic|].
  destruct (opc =? 31) eqn:H12.
  { destruct (F_func fr); close_no_panic. }
  destruct ((32 <=? opc) && (opc <=? 63) && (opc mod 2 =? 0)) eqn:H13.
  { apply andb_true_iff in H13; destruct H13 as [H13 Hp];
    apply andb_true_iff in H13; destruct H13 as [Ha Hb];
    apply Z.leb_le in Ha; apply Z.leb_le in Hb.
    zcases opc 32 63; try discriminate Hp; close_no_panic. }
  destruct ((32 <=? opc) && (opc <=? 63)) eqn:H14.
  { apply andb_true_iff in H14; destruct H14 as [Ha Hb];
    apply Z.leb_le in Ha; apply Z.leb_le in Hb.
    zcases opc 32 63; try discriminate H13; close_no_panic. }
  destruct ((64 <=? opc) && (opc <=? 79)) eqn:H15.
  { apply andb_true_iff in H15; destruct H15 as [Ha Hb];
    apply Z.leb_le in Ha; apply Z.leb_le in Hb. zcases opc 64 79; close_no_panic. }
  close_no_panic.
Qed.

(** C9: decoding never panics.  For every word [w] (so for every 32-bit
    word) [try_from_instruction] and the five [from_u32] return without
    reaching [unreachable!()]; [R::to_u32], the only [to_u32] that can
    panic, never does; [Nibble::from_u8] and [Nibble::from_u8_upper] never
    reach their [unreachable!()] arm. The other [to_u32] are total by their
    type. *)
Theorem decoding_never_panics (w : Z) :
  try_from_instruction w <> Panic /\
  E_from_u32 w <> Panic /\ R_from_u32 w <> Panic /\ M_from_u32 w <> Panic /\
  F_from_u32 w <> Panic /\ B_from_u32 w <> Panic /\
  (forall (r : R) (op : Z), R_to_u32 r op <> Panic) /\
  Nibble_from_u8 w <> Panic /\ Nibble_from_u8_upper w <> Panic.
Proof.
  split; [apply try_from_instruction_no_panic|].
  split; [destruct (E_from_u32_Done w) as [? ->]; discriminate|].
  split; [destruct (R_from_u32_Done w) as [? ->]; discriminate|].
  split; [destruct (M_from_u32_Done w) as [? ->]; discriminate|].
  split; [destruct (F_from_u32_Done w) as [? ->]; discriminate|].
  split; [destruct (B_from_u32_Done w) as [? ->]; discriminate|].
  split; [intros r op; destruct (R_to_u32_Done r op) as [? ->]; discriminate|].
  split; [destruct (Nibble_from_u8_Done w) as [? ->]; discriminate|].
  destruct (Nibble_from_u8_upper_Done w) as [? ->]; discriminate.
Qed.

(** ** Float conversions *)

Lemma FloatCastType_try_from_nibble_to (v : Nibble) (ct : FloatCastType) :
  FloatCastType_try_from_nibble v = Some ct ->
  to ct = (if Z.even (as_u8 v) then F16 else F32).
Proof. destruct v; cbn; intros H; inversion H; reflexivity. Qed.

Ltac leaf_hyp H :=
  unfold otry, yield, reject, unreachable in H;
  repeat match type of H with
  | context [match ?o with Some _ => _ | None => _ end] =>
      let E := fresh "Eo" in destruct o eqn:E
  end;
  try discriminate H.

Lemma decoded_Fcnv_nibble (w : Z) (rd r1 : Register) (p : FloatCastType) :
  try_from_instruction w = Done (Some (Fcnv rd r1 p)) ->
  exists v, FloatCastType_try_from_nibble v = Some p.
Proof.
  intros H. unfold try_from_instruction in H; cbv zeta in H.
  destruct (E_from_u32_Done w) as [er Her]; rewrite Her in H.
  destruct (R_from_u32_Done w) as [rr Hrr]; rewrite Hrr in H.
  destruct (M_from_u32_Done w) as [mr Hmr]; rewrite Hmr in H.
  destruct (F_from_u32_Done w) as [fr Hfr]; rewrite Hfr in H.
  destruct (B_from_u32_Done w) as [br Hbr]; rewrite Hbr in H.
  cbn [obind] in H. pose proof (opcode_range w) as Hop.
  remember (opcode w) as opc eqn:Hopc. clear Hopc.
  unfold in_range in H.
  destruct (opc =? 1) eqn:H1.
  { destruct (F_func fr); leaf_hyp H. }
  destruct ((2 <=? opc) && (opc <=? 5)) eqn:H2.
  { apply andb_true_iff in H2; destruct H2 as [Ha Hb];
    apply Z.leb_le in Ha; apply Z.leb_le in Hb. zcases opc 2 5; leaf_hyp H. }
  destruct ((6 <=? opc) && (opc <=? 9)) eqn:H3.
  { apply andb_true_iff in H3; destruct H3 as [Ha Hb];
    apply Z.leb_le in Ha; apply Z.leb_le in Hb. zcases opc 6 9; leaf_hyp H. }
  destruct (opc =? 10) eqn:H4; [leaf_hyp H|].
  destruct (opc =? 11) eqn:H5; [leaf_hyp H|].
  destruct (opc =? 12) eqn:H6; [leaf_hyp H|].
  destruct (opc =? 13) eqn:H7; [leaf_hyp H|].
  destruct (opc =? 14) eqn:H8; [leaf_hyp H|].
  destruct (opc =? 16) eqn:H9; [leaf_hyp H|].
  destruct ((17 <=? opc) && (opc <=? 27)) eqn:H10.
  { apply andb_true_iff in H10; destruct H10 as [Ha Hb];
    apply Z.leb_le in Ha; apply Z.leb_le in Hb. zcases opc 17 27; leaf_hyp H. }
  destruct (opc =? 30) eqn:H11; [leaf_hyp H|].
  destruct (opc =? 31) eqn:H12.
  { destruct (F_func fr); leaf_hyp H. }
  destruct ((32 <=? opc) && (opc <=? 63) && (opc mod 2 =? 0)) eqn:H13.
  { apply andb_true_iff in H13; destruct H13 as [H13 Hp];
    apply andb_true_iff in H13; destruct H13 as [Ha Hb];
    apply Z.leb_le in Ha; apply Z.leb_le in Hb.
    zcases opc 32 63; try discriminate Hp; leaf_hyp H. }
  destruct ((32 <=? opc) && (opc <=? 63)) eqn:H14.
  { apply andb_true_iff in H14; destruct H14 as [Ha Hb];
    apply Z.leb_le in Ha; apply Z.leb_le in Hb.
    zcases opc 32 63; try discriminate H13; leaf_hyp H. }
  destruct ((64 <=? opc) && (opc <=? 79)) eqn:H15.
  { apply andb_true_iff in H15; destruct H15 as [Ha Hb];
    apply Z.leb_le in Ha; apply Z.leb_le in Hb. zcases opc 64 79; leaf_hyp H.
    injection H as <- <- <-. eauto. }
  leaf_hyp H.
Qed.

(** C10: [FloatCastType::try_from_nibble v] is [Some] exactly when
    [v <= 0xB]; masking the nibble with [0x11] is masking it with [0x01], so
    the [to] precision of a returned cast is [F16] for even [v], [F32] for
    odd [v], never [F64]; and no word decodes to an [Fcnv] whose [to] is
    [F64], so [FloatCastType::cast] is never run on a decoded cast with an
    [F64] destination. *)
Theorem float_cast_nibble_to_precision (v : Nibble) :
  match FloatCastType_try_from_nibble v with Some _ => true | None => false end
    = (as_u8 v <=? 11) /\
  Z.land (as_u8 v) 17 = Z.land (as_u8 v) 1 /\
  (forall ct, FloatCastType_try_from_nibble v = Some ct ->
     to ct = (if Z.even (as_u8 v) then F16 else F32) /\ to ct <> F64) /\
  (forall w rd r1 p, try_from_instruction w = Done (Some (Fcnv rd r1 p)) ->
     to p <> F64).
Proof.
  split; [destruct v; reflexivity|].
  split; [destruct v; reflexivity|].
  split.
  - intros ct Hct. pose proof (FloatCastType_try_from_nibble_to v ct Hct) as Hto.
    split; [exact Hto|]. rewrite Hto. destruct (Z.even (as_u8 v)); discriminate.
  - intros w rd r1 p Hw. destruct (decoded_Fcnv_nibble w rd r1 p Hw) as [v' Hv'].
    rewrite (FloatCastType_try_from_nibble_to v' p Hv').
    destruct (Z.even (as_u8 v')); discriminate.
Qed.

Lemma float_cast_nibble_to_precision_witness :
  FloatCastType_try_from_nibble X5 = Some (mkFloatCastType F32 F32) /\
  to (mkFloatCastType F32 F32) = F32 /\ to (mkFloatCastType F32 F32) <> F64.
Proof.
  split; [reflexivity|].
  apply (proj1 (proj2 (proj2 (float_cast_nibble_to_precision X5)))).
  reflexivity.
Defined.

(** ** Encoding then decoding *)

Lemma div_mod_256 (a q : Z) : 0 <= a < 256 ->
  (a + 256 * q) / 256 = q /\ (a + 256 * q) mod 256 = a.
Proof.
  intros Ha. split.
  - rewrite Z.mul_comm, Z.div_add by lia. rewrite Z.div_small by lia. lia.
  - rewrite Z.mul_comm, Z.mod_add by lia. apply Z.mod_small; lia.
Qed.

Lemma u32_le_bytes_of (b0 b1 b2 b3 : Z) :
  0 <= b0 < 256 -> 0 <= b1 < 256 -> 0 <= b2 < 256 -> 0 <= b3 < 256 ->
  let w := u32_from_le_bytes b0 b1 b2 b3 in
  byte_of w 0 = b0 /\ byte_of w 1 = b1 /\ byte_of w 2 = b2 /\ byte_of w 3 = b3.
Proof.
  intros H0 H1 H2 H3 w. unfold w; clear w. rewrite !byte_of_div by lia.
  change (2 ^ (8 * 0)) with 1; change (2 ^ (8 * 1)) with 256;
  change (2 ^ (8 * 2)) with (256 * 256); change (2 ^ (8 * 3)) with (256 * 256 * 256).
  rewrite Z.div_1_r, <- !Z.div_div by lia.
  unfold u32_from_le_bytes.
  replace (b0 + 256 * b1 + 65536 * b2 + 16777216 * b3)
    with (b0 + 256 * (b1 + 256 * (b2 + 256 * b3))) by ring.
  destruct (div_mod_256 b0 (b1 + 256 * (b2 + 256 * b3)) H0) as [-> ->].
  destruct (div_mod_256 b1 (b2 + 256 * b3) H1) as [-> ->].
  destruct (div_mod_256 b2 b3 H2) as [-> ->].
  repeat split; try reflexivity; apply Z.mod_small; lia.
Qed.

Lemma compose_range (n u : Nibble) : 0 <= compose n u < 256.
Proof. rewrite compose_add. pose proof (as_u8_range n). pose proof (as_u8_range u). lia. Qed.

Lemma Nibble_from_u8_compose (n u : Nibble) : Nibble_from_u8 (compose n u) = Done n.
Proof. destruct n, u; reflexivity. Qed.

Lemma Nibble_from_u8_upper_compose (n u : Nibble) :
  Nibble_from_u8_upper (compose n u) = Done u.
Proof. destruct n, u; reflexivity. Qed.

Lemma u16_byte_range (v k : Z) : 0 <= u16_byte v k < 256.
Proof. apply byte_of_range. Qed.

Lemma u16_from_to (imm : Z) : 0 <= imm < 65536 ->
  u16_from_le_bytes (u16_byte imm 0) (u16_byte imm 1) = imm.
Proof.
  intros Hi. unfold u16_from_le_bytes. rewrite !u16_byte_div by lia.
  change (2 ^ (8 * 0)) with 1; change (2 ^ (8 * 1)) with 256. rewrite Z.div_1_r.
  rewrite (Z.mod_small (imm / 256)).
  - pose proof (Z.div_mod imm 256 ltac:(lia)). lia.
  - split; [apply Z.div_pos; lia|]. apply Z.div_lt_upper_bound; lia.
Qed.

Ltac le_bytes op b1 b2 b3 :=
  let H0 := fresh "Hb" in let H1 := fresh "Hb" in
  let H2 := fresh "Hb" in let H3 := fresh "Hb" in
  destruct (u32_le_bytes_of op b1 b2 b3) as [H0 [H1 [H2 H3]]];
  [ lia | first [apply byte_of_range | apply compose_range | lia]
  | first [apply byte_of_range | apply compose_range | lia]
  | first [apply byte_of_range | apply compose_range | lia] | ];
  unfold opcode; try rewrite H0; try rewrite H1; try rewrite H2; try rewrite H3.

Lemma E_enc (op off : Z) (func rs2 rs1 rde : Nibble) :
  0 <= op < 256 -> 0 <= off < 256 ->
  opcode (enc_E op off func rs2 rs1 rde) = op /\
  E_from_u32 (enc_E op off func rs2 rs1 rde) = Done (mkE off func rs2 rs1 rde).
Proof.
  intros Hop Hoff. unfold enc_E, E_to_u32, E_from_u32; cbn [E_imm E_func E_rs2 E_rs1 E_rde].
  le_bytes op off (compose func rs2) (compose rs1 rde). cbv zeta.
  rewrite !Nibble_from_u8_compose, !Nibble_from_u8_upper_compose. split; reflexivity.
Qed.

Lemma M_enc (op imm : Z) (rs1 rde : Nibble) :
  0 <= op < 256 -> 0 <= imm < 65536 ->
  opcode (enc_M op imm rs1 rde) = op /\
  M_from_u32 (enc_M op imm rs1 rde) = Done (mkM imm rs1 rde).
Proof.
  intros Hop Himm. unfold enc_M, M_to_u32, M_from_u32; cbn [M_imm M_rs1 M_rde].
  le_bytes op (u16_byte imm 0) (u16_byte imm 1) (compose rs1 rde). cbv zeta.
  rewrite Nibble_from_u8_compose, Nibble_from_u8_upper_compose. cbn [obind].
  rewrite u16_from_to by exact Himm. split; reflexivity.
Qed.

Lemma F_enc (op imm : Z) (func rde : Nibble) :
  0 <= op < 256 -> 0 <= imm < 65536 ->
  opcode (enc_F op imm func rde) = op /\
  F_from_u32 (enc_F op imm func rde) = Done (mkF imm func rde).
Proof.
  intros Hop Himm. unfold enc_F, F_to_u32, F_from_u32; cbn [F_imm F_func F_rde].
  le_bytes op (u16_byte imm 0) (u16_byte imm 1) (compose func rde). cbv zeta.
  rewrite Nibble_from_u8_compose, Nibble_from_u8_upper_compose. cbn [obind].
  rewrite u16_from_to by exact Himm. split; reflexivity.
Qed.

Lemma enc_R_value (op : Z) (rs2 rs1 rde : Nibble) :
  enc_R op rs2 rs1 rde = u32_from_le_bytes op 0 (compose X0 rs2) (compose rs1 rde).
Proof. reflexivity. Qed.

Lemma R_enc (op : Z) (rs2 rs1 rde : Nibble) :
  0 <= op < 256 ->
  opcode (enc_R op rs2 rs1 rde) = op /\
  R_from_u32 (enc_R op rs2 rs1 rde) = Done (mkR 0 rs2 rs1 rde).
Proof.
  intros Hop. rewrite enc_R_value. unfold R_from_u32.
  le_bytes op 0 (compose X0 rs2) (compose rs1 rde). cbv zeta.
  rewrite Nibble_from_u8_compose, !Nibble_from_u8_upper_compose. cbn [obind].
  split; [reflexivity|]. do 2 f_equal.
  rewrite land_4095, Z.shiftr_div_pow2 by lia. change (2 ^ 8) with 256.
  unfold u32_from_le_bytes. rewrite !compose_add. cbn [as_u8].
  replace (op + 256 * 0 + 65536 * (0 + 16 * as_u8 rs2) + 16777216 * (as_u8 rs1 + 16 * as_u8 rde))
    with (op + 256 * (4096 * (as_u8 rs2 + 16 * (as_u8 rs1 + 16 * as_u8 rde)))) by ring.
  destruct (div_mod_256 op (4096 * (as_u8 rs2 + 16 * (as_u8 rs1 + 16 * as_u8 rde))) Hop)
    as [-> _].
  rewrite Z.mul_comm, Z.mod_mul by lia. reflexivity.
Qed.

Lemma enc_B_value (op imm : Z) (func : Nibble) : 0 <= op < 256 ->
  enc_B op imm func = op + 256 * (imm mod 1048576) + 268435456 * as_u8 func.
Proof.
  intros Hop. unfold enc_B, B_to_u32; cbn [B_imm B_func].
  rewrite land_1048575, !Z.shiftl_mul_pow2 by lia. unfold u32_max.
  change (2 ^ 32) with 4294967296.
  pose proof (Z.mod_pos_bound imm 1048576 ltac:(lia)).
  pose proof (as_u8_range func).
  rewrite (Z.mod_small (imm mod 1048576 * 2 ^ 8)) by (change (2 ^ 8) with 256; lia).
  rewrite (Z.mod_small (as_u8 func * 2 ^ 28)) by (change (2 ^ 28) with 268435456; lia).
  rewrite (lor_shift_add op _ 8) by (change (2 ^ 8) with 256; lia).
  rewrite lor_shift_add by (change (2 ^ 8) with 256; change (2 ^ 28) with 268435456; lia).
  change (2 ^ 8) with 256. change (2 ^ 28) with 268435456. ring.
Qed.

Lemma B_enc (op imm : Z) (func : Nibble) :
  0 <= op < 256 ->
  opcode (enc_B op imm func) = op /\
  B_from_u32 (enc_B op imm func) = Done (mkB (imm mod 1048576) func).
Proof.
  intros Hop. rewrite enc_B_value by exact Hop.
  set (i := imm mod 1048576).
  assert (Hi : 0 <= i < 1048576) by (apply Z.mod_pos_bound; lia).
  destruct (Nibble_from_u8_spec (i / 65536)) as [n0 [_ Hn0]].
  assert (Hq : 0 <= i / 65536 < 16).
  { split; [apply Z.div_pos; lia|]. apply Z.div_lt_upper_bound; lia. }
  rewrite Z.mod_small in Hn0 by exact Hq.
  pose proof (Z.div_mod i 65536 ltac:(lia)) as Hdm.
  pose proof (Z.mod_pos_bound i 65536 ltac:(lia)) as Hm.
  pose proof (Z.div_mod (i mod 65536) 256 ltac:(lia)) as Hdm2.
  pose proof (Z.mod_pos_bound (i mod 65536) 256 ltac:(lia)) as Hm2.
  assert (Hq2 : 0 <= i mod 65536 / 256 < 256).
  { split; [apply Z.div_pos; lia|]. apply Z.div_lt_upper_bound; lia. }
  assert (Hw : op + 256 * i + 268435456 * as_u8 func =
    u32_from_le_bytes op ((i mod 65536) mod 256) ((i mod 65536) / 256) (compose n0 func)).
  { unfold u32_from_le_bytes. rewrite compose_add, Hn0. lia. }
  rewrite Hw. unfold B_from_u32.
  le_bytes op ((i mod 65536) mod 256) ((i mod 65536) / 256) (compose n0 func). cbv zeta.
  rewrite Nibble_from_u8_upper_compose. cbn [obind].
  split; [reflexivity|]. do 2 f_equal.
  rewrite <- Hw. rewrite land_1048575, Z.shiftr_div_pow2 by lia. change (2 ^ 8) with 256.
  replace (op + 256 * i + 268435456 * as_u8 func)
    with (op + 256 * (i + 1048576 * as_u8 func)) by ring.
  destruct (div_mod_256 op (i + 1048576 * as_u8 func) Hop) as [-> _].
  rewrite Z.mul_comm, Z.mod_add by lia. apply Z.mod_small; exact Hi.
Qed.

Lemma Register_from_to (r : Register) : Register_from_nibble (Register_to_nibble r) = r.
Proof. destruct r; reflexivity. Qed.

Lemma BranchCond_from_to (cc : BranchCond) :
  BranchCond_try_from_nibble (BranchCond_to_nibble cc) = Some cc.
Proof. destruct cc; reflexivity. Qed.

Lemma LiType_from_to (t : LiType) : LiType_try_from_nibble (LiType_to_nibble t) = Some t.
Proof. destruct t; reflexivity. Qed.

Lemma FloatPrecision_from_to (p : FloatPrecision) :
  FloatPrecision_try_from_nibble (FloatPrecision_to_nibble p) = Some p.
Proof. destruct p; reflexivity. Qed.

Lemma FloatCastType_from_to (ct : FloatCastType) : to ct <> F64 ->
  FloatCastType_try_from_nibble (FloatCastType_to_nibble ct) = Some ct.
Proof.
  destruct ct as [t f]; cbn [to]; intros H.
  destruct t, f; solve [reflexivity | congruence].
Qed.

Lemma Interrupt_from_small (i : Z) : 0 <= i < 256 -> Interrupt_try_from_u16 i = Some i.
Proof.
  intros Hi. unfold Interrupt_try_from_u16. rewrite !u16_byte_div by lia.
  change (2 ^ (8 * 0)) with 1; change (2 ^ (8 * 1)) with 256.
  rewrite Z.div_1_r, Z.div_small, (Z.mod_small i) by lia. reflexivity.
Qed.

Ltac enc_rw :=
  match goal with
  | |- context [opcode (enc_E ?op ?off ?f ?a ?b ?c)] =>
      let H1 := fresh "He" in let H2 := fresh "He" in
      destruct (E_enc op off f a b c) as [H1 H2]; [lia|lia|]; rewrite H1, H2
  | |- context [opcode (enc_M ?op ?imm ?a ?b)] =>
      let H1 := fresh "He" in let H2 := fresh "He" in
      destruct (M_enc op imm a b) as [H1 H2]; [lia|lia|]; rewrite H1, H2
  | |- context [opcode (enc_F ?op ?imm ?a ?b)] =>
      let H1 := fresh "He" in let H2 := fresh "He" in
      destruct (F_enc op imm a b) as [H1 H2]; [lia|lia|]; rewrite H1, H2
  | |- context [opcode (enc_R ?op ?a ?b ?c)] =>
      let H1 := fresh "He" in let H2 := fresh "He" in
      destruct (R_enc op a b c) as [H1 H2]; [lia|]; rewrite H1, H2
  | |- context [opcode (enc_B ?op ?imm ?f)] =>
      let H1 := fresh "He" in let H2 := fresh "He" in
      destruct (B_enc op imm f) as [H1 H2]; [lia|]; rewrite H1, H2
  end.

Ltac in_u_facts H :=
  unfold in_u in H; apply andb_true_iff in H; destruct H as [?Hl ?Hh];
  apply Z.leb_le in Hl; apply Z.ltb_lt in Hh.

(** For every variant with immediates in their Rust types, other than a
    [Branch] whose [imm20] does not fit in 20 bits and an [Fcnv] whose
    destination is [F64], decoding the encoded word gives back the variant. *)
Lemma encodable_roundtrip (v : InstructionSet) :
  encodable v = true -> try_from_instruction (to_instruction v) = Done (Some v).
Proof.
  intros Hv. unfold encodable in Hv. apply andb_true_iff in Hv as [Hc Hx].
  destruct v; cbn [constructible] in Hc; try in_u_facts Hc;
    repeat match goal with b : bool |- _ => destruct b end;
    cbn [to_instruction]; unfold reg, try_from_instruction; cbv zeta; enc_rw;
    cbn -[Register_from_nibble Register_to_nibble BranchCond_try_from_nibble
          BranchCond_to_nibble LiType_try_from_nibble LiType_to_nibble
          FloatPrecision_try_from_nibble FloatPrecision_to_nibble
          FloatCastType_try_from_nibble FloatCastType_to_nibble Interrupt_try_from_u16];
    rewrite ?Register_from_to, ?BranchCond_from_to, ?LiType_from_to, ?FloatPrecision_from_to;
    try reflexivity.
  - rewrite Interrupt_from_small by lia. reflexivity.
  - apply Z.ltb_lt in Hx. rewrite Z.mod_small by lia. reflexivity.
  - rewrite FloatCastType_from_to; [reflexivity|].
    destruct (to p); discriminate.
Qed.

(** C2 (code bug): decoding an encoded variant gives it back for every
    constructible variant except two.  A [Branch] comes back with its
    immediate masked to the 20 bits of the [B] format, as the encoder
    masks it.  An [Fcnv] whose destination precision is [F64] always
    comes back as a cast to [F16]: [FloatCastType::try_from_nibble] reads
    [to] through the mask [0x11], which keeps only bit 0 of the 2-bit
    field that holds [F64] as 2. *)
Theorem to_instruction_roundtrip_Fcnv_F64_bug :
  (forall v : InstructionSet, encodable v = true ->
     try_from_instruction (to_instruction v) = Done (Some v)) /\
  (forall (cc : BranchCond) (imm20 : Z),
     try_from_instruction (to_instruction (Branch cc imm20))
       = Done (Some (Branch cc (imm20 mod 2 ^ 20)))) /\
  (forall (rd r1 : Register) (f : FloatPrecision),
     try_from_instruction (to_instruction (Fcnv rd r1 (mkFloatCastType F64 f)))
       = Done (Some (Fcnv rd r1 (mkFloatCastType F16 f)))).
Proof.
  split; [exact encodable_roundtrip|]. split.
  - intros cc imm20.
    cbn [to_instruction]; unfold reg, try_from_instruction; cbv zeta; enc_rw.
    cbn -[BranchCond_try_from_nibble BranchCond_to_nibble].
    rewrite BranchCond_from_to. reflexivity.
  - intros rd r1 f.
    cbn [to_instruction]; unfold reg, try_from_instruction; cbv zeta; enc_rw.
    cbn -[Register_from_nibble Register_to_nibble FloatCastType_try_from_nibble].
    rewrite !Register_from_to. destruct f; reflexivity.
Qed.

(** ** Bit access *)

Lemma testbit_mod_pow2 (x w j : Z) : 0 <= w -> 0 <= j ->
  Z.testbit (x mod 2 ^ w) j = (j <? w) && Z.testbit x j.
Proof.
  intros Hw Hj. destruct (Z.ltb_spec j w).
  - apply Z.mod_pow2_bits_low; lia.
  - apply Z.mod_pow2_bits_high; lia.
Qed.

Lemma testbit_small (x n j : Z) : 0 <= x < 2 ^ n -> n <= j -> Z.testbit x j = false.
Proof.
  intros Hx Hj. assert (0 <= n) by (destruct (Z.ltb_spec n 0); [rewrite Z.pow_neg_r in Hx by lia; lia | lia]).
  rewrite <- (Z.mod_small x (2 ^ n)) by lia. apply Z.mod_pow2_bits_high; lia.
Qed.

Lemma testbit_shiftl (a k j : Z) : 0 <= k -> 0 <= j ->
  Z.testbit (Z.shiftl a k) j = (k <=? j) && Z.testbit a (j - k).
Proof.
  intros Hk Hj. destruct (Z.leb_spec k j).
  - apply Z.shiftl_spec_high; lia.
  - apply Z.shiftl_spec_low; lia.
Qed.

Lemma testbit_ones (n j : Z) : 0 <= n -> Z.testbit (2 ^ n - 1) j = (0 <=? j) && (j <? n).
Proof.
  intros Hn. replace (2 ^ n - 1) with (Z.ones n) by (rewrite Z.ones_equiv; lia).
  destruct (Z.leb_spec 0 j); [|rewrite Z.testbit_neg_r by lia; reflexivity].
  destruct (Z.ltb_spec j n).
  - apply Z.ones_spec_low; lia.
  - apply Z.ones_spec_high; lia.
Qed.

(** X1: the integer slices of [BitAccessTo] isolate their field: for a
    slice of [size] bits at an index whose field fits in the [w]-bit
    container, [write] keeps every bit outside the field, and [access] then
    reads back the written value. *)
Lemma int_write_to_spec (w size to INDEX v : Z) :
  0 < size -> 0 <= INDEX -> (INDEX + 1) * size <= w ->
  0 <= to < 2 ^ w -> 0 <= v < 2 ^ size ->
  int_access_to size (int_write_to w size to INDEX v) INDEX = v /\
  forall j, 0 <= j -> j < INDEX * size \/ (INDEX + 1) * size <= j ->
    Z.testbit (int_write_to w size to INDEX v) j = Z.testbit to j.
Proof.
  intros Hs HI Hw Hto Hv.
  assert (Hk : 0 <= INDEX * size) by nia.
  assert (Hbit : forall j, 0 <= j -> Z.testbit (int_write_to w size to INDEX v) j =
    if (INDEX * size <=? j) && (j <? (INDEX + 1) * size) then Z.testbit v (j - INDEX * size)
    else Z.testbit to j).
  { intros j Hj. unfold int_write_to, not_w. cbv zeta.
    rewrite Z.lor_spec, Z.land_spec, !testbit_mod_pow2 by lia.
    rewrite Z.lnot_spec by lia. rewrite testbit_mod_pow2 by lia.
    rewrite !testbit_shiftl by lia. rewrite testbit_ones by lia.
    destruct (Z.leb_spec (INDEX * size) j); destruct (Z.ltb_spec j ((INDEX + 1) * size));
      destruct (Z.ltb_spec j w); destruct (Z.leb_spec 0 (j - INDEX * size));
      destruct (Z.ltb_spec (j - INDEX * size) size); cbn [andb orb negb];
      try lia;
      try (rewrite (testbit_small to w j) by lia);
      try (rewrite (testbit_small v size (j - INDEX * size)) by lia);
      rewrite ?andb_true_r, ?andb_false_r, ?orb_false_r, ?orb_false_l; reflexivity. }
  split.
  - unfold int_access_to. apply Z.bits_inj'. intros i Hi.
    rewrite testbit_mod_pow2, Z.shiftr_spec, Hbit by lia.
    destruct (Z.ltb_spec i size).
    + replace ((INDEX * size <=? i + INDEX * size) && (i + INDEX * size <? (INDEX + 1) * size))
        with true by (symmetry; apply andb_true_iff; split; [apply Z.leb_le|apply Z.ltb_lt]; lia).
      cbn [andb]. replace (i + INDEX * size - INDEX * size) with i by lia. reflexivity.
    + cbn [andb]. symmetry. apply (testbit_small v size i); lia.
  - intros j Hj Hout. rewrite Hbit by exact Hj.
    replace ((INDEX * size <=? j) && (j <? (INDEX + 1) * size)) with false; [reflexivity|].
    symmetry. apply andb_false_iff.
    destruct Hout; [left; apply Z.leb_gt | right; apply Z.ltb_ge]; lia.
Qed.

Lemma int_write_to_spec_witness :
  int_access_to 8 (int_write_to 32 8 3735928559 2 18) 2 = 18 /\
  int_write_to 32 8 3735928559 2 18 = 3725770479.
Proof.
  split; [|vm_compute; reflexivity].
  apply (int_write_to_spec 32 8 3735928559 2 18); lia.
Defined.

(** C4 fails for the [bool] slices: the read [(to >> INDEX) != 0] does not
    mask bit [INDEX] ([ops::bit] does, with [& 1]), so it sees every bit
    above it.  In a [u8] holding [0b10], writing [false] at index 0 leaves
    [0b10], and reading index 0 back gives [true]; the same for a [u64] and
    for the nibble [0x2]. *)
Theorem bool_access_after_write_reads_higher_bits :
  bool_write_to 8 2 0 false = 2 /\ bool_access_to (bool_write_to 8 2 0 false) 0 = true /\
  bool_write_to 64 2 0 false = 2 /\ bool_access_to (bool_write_to 64 2 0 false) 0 = true /\
  bool_write_to_Nibble X2 0 false = Done X2 /\ bool_access_to_Nibble X2 0 = true.
Proof. vm_compute. repeat split. Qed.

(** ** Field widths on encode *)

(** C5 fails for the [B] format: [B::to_u32] shifts [imm] left by 8
    without masking it to its 20 bits ([R::to_u32] masks its 12-bit
    immediate through [Nibble::from_u8]), so bit 20 of [imm] lands in bit
    28, the low bit of [func]; decoding the word gives [func = 1] and
    [imm = 0]. *)
Theorem B_to_u32_imm_leaks_into_func :
  B_to_u32 (mkB 1048576 X0) 0 = 268435456 /\
  B_from_u32 (B_to_u32 (mkB 1048576 X0) 0) = Done (mkB 0 X1).
Proof. vm_compute. split; reflexivity. Qed.

(** ** Nibbles of an instruction word *)

Lemma nth_nibble_even (w k : Z) : 0 <= k < 4 ->
  nth_nibble w (2 * k) = Nibble_from_u8 (byte_of w k).
Proof.
  intros Hk. zcases k 0 3; reflexivity.
Qed.

Lemma nth_nibble_odd (w k : Z) : 0 <= k < 4 ->
  nth_nibble w (2 * k + 1) = Nibble_from_u8_upper (byte_of w k).
Proof.
  intros Hk. zcases k 0 3; reflexivity.
Qed.

Lemma byte_lo_nibble (w k : Z) : 0 <= k -> (byte_of w k) mod 16 = (w / 2 ^ (4 * (2 * k))) mod 16.
Proof.
  intros Hk. rewrite byte_of_div by lia. replace (4 * (2 * k)) with (8 * k) by lia.
  apply mod_mod_small; [lia|lia|]. exists 16. reflexivity.
Qed.

Lemma mod256_div16 (x : Z) : (x mod 256) / 16 = (x / 16) mod 16.
Proof.
  pose proof (Z.div_mod x 256 ltac:(lia)) as Hx.
  pose proof (Z.mod_pos_bound x 256 ltac:(lia)) as Hr.
  remember (x mod 256) as r. remember (x / 256) as q.
  rewrite Hx. replace (256 * q + r) with (r + (16 * q) * 16) by lia.
  rewrite Z.div_add by lia. replace (r / 16 + 16 * q) with (r / 16 + q * 16) by lia.
  rewrite Z.mod_add by lia.
  rewrite Z.mod_small; [reflexivity|].
  split; [apply Z.div_pos|apply Z.div_lt_upper_bound]; lia.
Qed.

Lemma byte_hi_nibble (w k : Z) : 0 <= k ->
  (byte_of w k) / 16 = (w / 2 ^ (4 * (2 * k + 1))) mod 16.
Proof.
  intros Hk. rewrite byte_of_div by lia.
  replace (4 * (2 * k + 1)) with (8 * k + 4) by lia.
  rewrite Z.pow_add_r by lia. rewrite <- Z.div_div by (try apply Z.pow_nonzero; lia).
  change (2 ^ 4) with 16. apply mod256_div16.
Qed.

(** X2: [Instruction::nth_nibble] with [idx < 8] returns nibble [idx] of the
    word counted from the least significant end, that is
    [(w >> 4 * idx) & 0xF]; with [idx >= 8] the index into the four bytes
    is out of bounds and it panics. *)
Theorem nth_nibble_spec (w idx : Z) : 0 <= idx ->
  (idx < 8 -> exists n, nth_nibble w idx = Done n /\ as_u8 n = (w / 2 ^ (4 * idx)) mod 16) /\
  (8 <= idx -> nth_nibble w idx = Panic).
Proof.
  intros H0. split.
  - intros H8.
    pose proof (Z.div_mod idx 2 ltac:(lia)) as Hd.
    pose proof (Z.mod_pos_bound idx 2 ltac:(lia)) as Hm.
    assert (Hk : 0 <= idx / 2 < 4) by (split; [apply Z.div_pos|apply Z.div_lt_upper_bound]; lia).
    destruct (Z.eq_dec (idx mod 2) 0) as [E|E].
    + rewrite E, Z.add_0_r in Hd. rewrite Hd, nth_nibble_even by exact Hk.
      destruct (Nibble_from_u8_spec (byte_of w (idx / 2))) as [n [Hn Hv]].
      exists n. split; [exact Hn|]. rewrite Hv. apply byte_lo_nibble. lia.
    + replace (idx mod 2) with 1 in Hd by lia. rewrite Hd, nth_nibble_odd by exact Hk.
      destruct (Nibble_from_u8_upper_spec (byte_of w (idx / 2)) (byte_of_range _ _))
        as [n [Hn Hv]].
      exists n. split; [exact Hn|]. rewrite Hv. apply byte_hi_nibble. lia.
  - intros H8. unfold nth_nibble, index.
    replace (idx / 2 <? 0) with false
      by (symmetry; apply Z.ltb_ge; apply Z.div_pos; lia).
    replace (nth_error (u32_to_le_bytes w) (Z.to_nat (idx / 2))) with (@None Z).
    + destruct (idx mod 2 =? 0); reflexivity.
    + symmetry. apply nth_error_None. cbn [u32_to_le_bytes length].
      assert (4 <= idx / 2) by (apply Z.div_le_lower_bound; lia). lia.
Qed.

Lemma nth_nibble_spec_witness :
  (exists n, nth_nibble 19088743 1 = Done n /\ as_u8 n = (19088743 / 2 ^ (4 * 1)) mod 16) /\
  nth_nibble 19088743 8 = Panic.
Proof.
  split.
  - apply (proj1 (nth_nibble_spec 19088743 1 ltac:(lia))). lia.
  - apply (proj2 (nth_nibble_spec 19088743 8 ltac:(lia))). lia.
Defined.

Ltac nibble_of_byte :=
  repeat match goal with
  | |- context [nth_nibble ?w 0] => change (nth_nibble w 0) with (Nibble_from_u8 (byte_of w 0))
  | |- context [nth_nibble ?w 1] => change (nth_nibble w 1) with (Nibble_from_u8_upper (byte_of w 0))
  | |- context [nth_nibble ?w 2] => change (nth_nibble w 2) with (Nibble_from_u8 (byte_of w 1))
  | |- context [nth_nibble ?w 3] => change (nth_nibble w 3) with (Nibble_from_u8_upper (byte_of w 1))
  | |- context [nth_nibble ?w 4] => change (nth_nibble w 4) with (Nibble_from_u8 (byte_of w 2))
  | |- context [nth_nibble ?w 5] => change (nth_nibble w 5) with (Nibble_from_u8_upper (byte_of w 2))
  | |- context [nth_nibble ?w 6] => change (nth_nibble w 6) with (Nibble_from_u8 (byte_of w 3))
  | |- context [nth_nibble ?w 7] => change (nth_nibble w 7) with (Nibble_from_u8_upper (byte_of w 3))
  end.

Ltac peel_outcomes H :=
  repeat match type of H with
  | context [obind ?o _] =>
      let x := fresh "x" in let E := fresh "E" in
      destruct o as [x|] eqn:E; cbn [obind] in H; [|discriminate H]
  end.

(** X3: the nibble fields that the format decoders [E::from_u32],
    [R::from_u32], [M::from_u32], [F::from_u32] and [B::from_u32] read are
    the word's nibbles as [Instruction::nth_nibble] numbers them (E: func 4,
    rs2 5, rs1 6, rde 7; R: rs2 5, rs1 6, rde 7; M: rs1 6, rde 7; F: func 6,
    rde 7; B: func 7), and [Instruction::opcode] is the byte composed of
    nibbles 0 and 1. *)
Theorem format_fields_are_nibbles (w : Z) :
  (forall lo hi, nth_nibble w 0 = Done lo -> nth_nibble w 1 = Done hi ->
     compose lo hi = opcode w) /\
  (forall e, E_from_u32 w = Done e ->
     nth_nibble w 4 = Done (E_func e) /\ nth_nibble w 5 = Done (E_rs2 e) /\
     nth_nibble w 6 = Done (E_rs1 e) /\ nth_nibble w 7 = Done (E_rde e)) /\
  (forall r, R_from_u32 w = Done r ->
     nth_nibble w 5 = Done (R_rs2 r) /\ nth_nibble w 6 = Done (R_rs1 r) /\
     nth_nibble w 7 = Done (R_rde r)) /\
  (forall m, M_from_u32 w = Done m ->
     nth_nibble w 6 = Done (M_rs1 m) /\ nth_nibble w 7 = Done (M_rde m)) /\
  (forall f, F_from_u32 w = Done f ->
     nth_nibble w 6 = Done (F_func f) /\ nth_nibble w 7 = Done (F_rde f)) /\
  (forall b, B_from_u32 w = Done b -> nth_nibble w 7 = Done (B_func b)).
Proof.
  nibble_of_byte.
  split; [|split; [|split; [|split; [|split]]]].
  - intros lo hi Hlo Hhi.
    destruct (Nibble_from_u8_spec (byte_of w 0)) as [n [Hn Hv]].
    destruct (Nibble_from_u8_upper_spec (byte_of w 0) (byte_of_range _ _)) as [u [Hu Hu']].
    rewrite Hn in Hlo. rewrite Hu in Hhi. injection Hlo as <-. injection Hhi as <-.
    rewrite compose_add, Hv, Hu'. unfold opcode. apply mod16_div16.
  - intros e He. unfold E_from_u32 in He. cbv zeta in He. peel_outcomes He.
    injection He as <-. repeat split.
  - intros r He. unfold R_from_u32 in He. cbv zeta in He. peel_outcomes He.
    injection He as <-. repeat split.
  - intros m He. unfold M_from_u32 in He. cbv zeta in He. peel_outcomes He.
    injection He as <-. repeat split.
  - intros f He. unfold F_from_u32 in He. cbv zeta in He. peel_outcomes He.
    injection He as <-. repeat split.
  - intros b He. unfold B_from_u32 in He. cbv zeta in He. peel_outcomes He.
    injection He as <-. reflexivity.
Qed.

(** ** Nibble and register conversions *)

(** X4: a byte splits into its two nibbles and composes back:
    [Nibble::from_u8] and [Nibble::from_u8_upper] never panic on a [u8] and
    [compose] of the two gives the byte again; conversely the two
    constructors read back both nibbles of [compose n u]. *)
Theorem nibble_byte_split (v : Z) : 0 <= v < 256 ->
  (exists n u, Nibble_from_u8 v = Done n /\ Nibble_from_u8_upper v = Done u /\
     compose n u = v) /\
  (forall n u, Nibble_from_u8 (compose n u) = Done n /\
     Nibble_from_u8_upper (compose n u) = Done u).
Proof.
  intros Hv. split.
  - destruct (Nibble_from_u8_spec v) as [n [Hn Hn']].
    destruct (Nibble_from_u8_upper_spec v Hv) as [u [Hu Hu']].
    exists n, u. split; [exact Hn|split; [exact Hu|]].
    rewrite compose_add, Hn', Hu'. apply mod16_div16.
  - intros n u. split; [apply Nibble_from_u8_compose|apply Nibble_from_u8_upper_compose].
Qed.

Lemma nibble_byte_split_witness :
  exists n u, Nibble_from_u8 105 = Done n /\ Nibble_from_u8_upper 105 = Done u /\
    compose n u = 105.
Proof. apply (proj1 (nibble_byte_split 105 ltac:(lia))). Defined.

Lemma Nibble_try_from_u8_Some (v : Z) (n : Nibble) :
  Nibble_try_from_u8 v = Some n -> as_u8 n = v.
Proof.
  unfold Nibble_try_from_u8. intros H.
  destruct v as [|p|p]; [injection H as <-; reflexivity| |discriminate].
  do 4 (destruct p as [p|p|]; try (injection H as <-; reflexivity)); discriminate.
Qed.

Lemma Nibble_try_from_u8_as_u8 (n : Nibble) : Nibble_try_from_u8 (as_u8 n) = Some n.
Proof. destruct n; reflexivity. Qed.

Lemma Nibble_from_u8_as_u8 (n : Nibble) : Nibble_from_u8 (as_u8 n) = Done n.
Proof. destruct n; reflexivity. Qed.

(** X5: [Nibble::try_from_u8 v] is [Some n] exactly when [n as u8 == v],
    is [None] exactly when [v >= 16], and where it succeeds it agrees with
    the masking [Nibble::from_u8]. *)
Theorem Nibble_try_from_u8_spec :
  (forall v n, Nibble_try_from_u8 v = Some n <-> as_u8 n = v) /\
  (forall v, Nibble_try_from_u8 v = None <-> ~ (0 <= v < 16)) /\
  (forall v n, Nibble_try_from_u8 v = Some n -> Nibble_from_u8 v = Done n).
Proof.
  split; [|split].
  - intros v n. split; [apply Nibble_try_from_u8_Some|intros <-; apply Nibble_try_from_u8_as_u8].
  - intros v. split.
    + intros H Hv. zcases v 0 15; discriminate H.
    + intros Hv. destruct (Nibble_try_from_u8 v) as [n|] eqn:E; [|reflexivity].
      apply Nibble_try_from_u8_Some in E. pose proof (as_u8_range n). lia.
  - intros v n H. apply Nibble_try_from_u8_Some in H. subst v. apply Nibble_from_u8_as_u8.
Qed.

(** X6: [From<int> for Nibble] ([Nibble::from_u8(value as u8)]) never
    panics and keeps the low four bits of the two's-complement value, for
    negative values too; converting a nibble to an integer
    ([value as u8 as Self]) and back gives the same nibble. *)
Theorem Nibble_from_int_spec :
  (forall x, exists n, Nibble_from_int x = Done n /\ as_u8 n = x mod 16) /\
  (forall n, Nibble_from_int (int_from_Nibble n) = Done n).
Proof.
  split.
  - intros x. unfold Nibble_from_int.
    destruct (Nibble_from_u8_spec (x mod 2 ^ 8)) as [n [Hn Hv]].
    exists n. split; [exact Hn|]. rewrite Hv. apply mod_mod_small; [lia|lia|].
    exists 16. reflexivity.
  - intros n. destruct n; reflexivity.
Qed.

(** X7: [Nibble::to_bool] is false exactly for the nibble 0;
    [Nibble::from_bool] then [to_bool] gives back the boolean, while
    [to_bool] then [from_bool] gives back only the nibbles 0 and 1. *)
Theorem Nibble_bool_conversions :
  (forall b, Nibble_to_bool (Nibble_from_bool b) = b) /\
  (forall n, Nibble_to_bool n = negb (as_u8 n =? 0)) /\
  (forall n, Nibble_from_bool (Nibble_to_bool n) = n <-> n = X0 \/ n = X1).
Proof.
  split; [|split].
  - intros []; reflexivity.
  - intros n; destruct n; reflexivity.
  - intros n; destruct n; cbn; split; intros H;
      try discriminate H; try (destruct H as [H|H]; discriminate H); auto.
Qed.

Lemma Register_try_from_u8_Some (v : Z) (r : Register) :
  Register_try_from_u8 v = Some r -> Register_to_u8 r = v.
Proof.
  unfold Register_try_from_u8. intros H.
  destruct v as [|p|p]; [injection H as <-; reflexivity| |discriminate].
  do 4 (destruct p as [p|p|]; try (injection H as <-; reflexivity)); discriminate.
Qed.

Lemma Register_to_u8_range (r : Register) : 0 <= Register_to_u8 r < 16.
Proof. destruct r; cbn; lia. Qed.

(** X8: [Register::try_from_u8 v] is [Some r] exactly when
    [r.to_u8() == v] and [None] exactly when [v >= 16]; [to_nibble] keeps the
    register number, and [from_nibble] and [to_nibble] are inverse
    bijections between the sixteen registers and the sixteen nibbles. *)
Theorem Register_conversions :
  (forall v r, Register_try_from_u8 v = Some r <-> Register_to_u8 r = v) /\
  (forall v, Register_try_from_u8 v = None <-> ~ (0 <= v < 16)) /\
  (forall r, as_u8 (Register_to_nibble r) = Register_to_u8 r) /\
  (forall n, Register_to_nibble (Register_from_nibble n) = n) /\
  (forall r, Register_from_nibble (Register_to_nibble r) = r).
Proof.
  split; [|split; [|split; [|split]]].
  - intros v r. split; [apply Register_try_from_u8_Some|intros <-; destruct r; reflexivity].
  - intros v. split.
    + intros H Hv. zcases v 0 15; discriminate H.
    + intros Hv. destruct (Register_try_from_u8 v) as [r|] eqn:E; [|reflexivity].
      apply Register_try_from_u8_Some in E. pose proof (Register_to_u8_range r). lia.
  - intros r; destruct r; reflexivity.
  - intros n; destruct n; reflexivity.
  - apply Register_from_to.
Qed.

Lemma Interrupt_is_reserved_spec (i : Z) : 0 <= i -> Interrupt_is_reserved i = (i <=? 6).
Proof.
  intros Hi. destruct (Z.leb_spec i 6).
  - zcases i 0 6; reflexivity.
  - destruct i as [|p|p]; [lia| |lia].
    do 3 (destruct p as [p|p|]; try reflexivity; try lia).
Qed.

(** X9: [Interrupt::try_from_u16] accepts exactly the values below 256 and
    keeps them unchanged ([None] for every value with a non-zero high
    byte); the interrupt it returns is reserved exactly when the value is at
    most 6. *)
Theorem Interrupt_try_from_u16_spec (v : Z) : 0 <= v < 2 ^ 16 ->
  (forall i, Interrupt_try_from_u16 v = Some i <-> v < 256 /\ i = v) /\
  (Interrupt_try_from_u16 v = None <-> 256 <= v) /\
  (forall i, Interrupt_try_from_u16 v = Some i -> Interrupt_is_reserved i = (v <=? 6)).
Proof.
  intros Hv. change (2 ^ 16) with 65536 in Hv.
  assert (E : Interrupt_try_from_u16 v = if v <? 256 then Some v else None).
  { unfold Interrupt_try_from_u16. rewrite !u16_byte_div by lia.
    change (2 ^ (8 * 1)) with 256. change (2 ^ (8 * 0)) with 1. rewrite Z.div_1_r.
    rewrite (Z.mod_small (v / 256)) by (split; [apply Z.div_pos|apply Z.div_lt_upper_bound]; lia).
    destruct (Z.ltb_spec v 256).
    - rewrite Z.div_small by lia. rewrite Z.mod_small by lia. reflexivity.
    - replace (v / 256 =? 0) with false; [reflexivity|].
      symmetry. apply Z.eqb_neq. assert (1 <= v / 256) by (apply Z.div_le_lower_bound; lia). lia. }
  rewrite E. destruct (Z.ltb_spec v 256).
  - split; [|split].
    + intros i. split; [intros H'; injection H' as <-; auto|intros [_ <-]; reflexivity].
    + split; [discriminate|lia].
    + intros i H'. injection H' as <-. apply Interrupt_is_reserved_spec. lia.
  - split; [|split].
    + intros i. split; [discriminate|lia].
    + split; intros _; [lia|reflexivity].
    + discriminate.
Qed.

Lemma Interrupt_try_from_u16_spec_witness :
  (forall i, Interrupt_try_from_u16 517 = Some i <-> 517 < 256 /\ i = 517) /\
  (Interrupt_try_from_u16 517 = None <-> 256 <= 517).
Proof.
  pose proof (Interrupt_try_from_u16_spec 517 ltac:(lia)) as H.
  split; [apply H|apply H].
Defined.

(** ** Multiplication, subtraction and division in [ops] *)

Lemma as_i64_mod (u : Z) : 0 <= u < 2 ^ 64 -> as_i64 u mod 2 ^ 64 = u.
Proof.
  intros Hu. unfold as_i64. destruct (Z.ltb_spec u (2 ^ 63)).
  - apply Z.mod_small; lia.
  - replace (u - 2 ^ 64) with (u + (-1) * 2 ^ 64) by lia.
    rewrite Z.mod_add by lia. apply Z.mod_small; lia.
Qed.

(** X10: [ops::imul] (signed wrapping product) and [ops::umul] (unsigned
    wrapping product) return the same 64 bits for all operands; each is the
    exact product whenever that fits its type. *)
Theorem imul_eq_umul (a b : Z) : 0 <= a < 2 ^ 64 -> 0 <= b < 2 ^ 64 ->
  imul a b = umul a b /\
  (- 2 ^ 63 <= as_i64 a * as_i64 b < 2 ^ 63 -> as_i64 (imul a b) = as_i64 a * as_i64 b) /\
  (a * b < 2 ^ 64 -> umul a b = a * b).
Proof.
  intros Ha Hb.
  assert (Himul : imul a b = (as_i64 a * as_i64 b) mod 2 ^ 64).
  { unfold imul, i64_wrapping_mul. apply as_u64_as_i64. apply Z.mod_pos_bound. lia. }
  split; [|split].
  - rewrite Himul. unfold umul.
    rewrite Z.mul_mod by lia. rewrite !as_i64_mod by assumption. reflexivity.
  - intros Hr. rewrite Himul. apply as_i64_as_u64. exact Hr.
  - intros Hr. unfold umul. apply Z.mod_small. lia.
Qed.

Lemma imul_eq_umul_witness :
  imul (2 ^ 64 - 3) 5 = umul (2 ^ 64 - 3) 5 /\
  (- 2 ^ 63 <= as_i64 (2 ^ 64 - 3) * as_i64 5 < 2 ^ 63 ->
   as_i64 (imul (2 ^ 64 - 3) 5) = as_i64 (2 ^ 64 - 3) * as_i64 5).
Proof.
  pose proof (imul_eq_umul (2 ^ 64 - 3) 5 ltac:(lia) ltac:(lia)) as H.
  split; apply H.
Defined.

Lemma add_closed (a b : Z) (carry : bool) : 0 <= a < 2 ^ 64 -> 0 <= b < 2 ^ 64 ->
  add a b carry =
  mkAddResult ((a + b + bool_as_int carry) mod 2 ^ 64) (2 ^ 64 <=? a + b + bool_as_int carry)
    (negb (i64_in_range (as_i64 a + as_i64 b + bool_as_int carry))).
Proof.
  intros Ha Hb. pose proof (bool_as_int_range carry) as Hc.
  rewrite add_fields, signed_flag_add, add_signed_steps_xor by assumption.
  unfold carrying_add_u. rewrite unsigned_two_steps_add by assumption. reflexivity.
Qed.

Lemma sub_closed (a b : Z) (carry : bool) : 0 <= a < 2 ^ 64 -> 0 <= b < 2 ^ 64 ->
  sub a b carry =
  mkAddResult ((a - b - bool_as_int carry) mod 2 ^ 64) (a - b - bool_as_int carry <? 0)
    (negb (i64_in_range (as_i64 a - as_i64 b - bool_as_int carry))).
Proof.
  intros Ha Hb. pose proof (bool_as_int_range carry) as Hc.
  rewrite sub_fields, signed_flag_sub, sub_signed_steps_xor by assumption.
  unfold carrying_sub_u. rewrite unsigned_two_steps_sub by assumption. reflexivity.
Qed.

Lemma not_w_64 (b : Z) : 0 <= b < 2 ^ 64 -> not_w 64 b = 2 ^ 64 - 1 - b.
Proof.
  intros Hb. unfold not_w. rewrite Z.lnot_eq_pred_opp.
  symmetry. apply Z.mod_unique with (-1); lia.
Qed.

(** X11: [ops::sub] is [ops::add] of the complemented operand [!b] with the
    inverted carry: it returns the same result and signed flag, and its
    unsigned flag (a borrow) is the negation of that addition's carry out. *)
Theorem sub_is_add_complement (a b : Z) (carry : bool) :
  0 <= a < 2 ^ 64 -> 0 <= b < 2 ^ 64 ->
  let r := add a (not_w 64 b) (negb carry) in
  sub a b carry = mkAddResult (result r) (negb (unsigned_overflow r)) (signed_overflow r).
Proof.
  intros Ha Hb. cbv zeta. rewrite not_w_64 by exact Hb.
  rewrite sub_closed, add_closed by lia. cbn [result unsigned_overflow signed_overflow].
  assert (Hn : as_i64 (2 ^ 64 - 1 - b) = - 1 - as_i64 b) by (unfold as_i64; case_bools; lia).
  rewrite Hn.
  destruct carry; cbn [negb bool_as_int].
  - f_equal.
    + replace (a + (2 ^ 64 - 1 - b) + 0) with ((a - b - 1) + 1 * 2 ^ 64) by lia.
      rewrite Z.mod_add by lia. reflexivity.
    + case_bools; cbn; first [reflexivity | lia].
    + f_equal. f_equal. lia.
  - f_equal.
    + replace (a + (2 ^ 64 - 1 - b) + 1) with ((a - b - 0) + 1 * 2 ^ 64) by lia.
      rewrite Z.mod_add by lia. reflexivity.
    + case_bools; cbn; first [reflexivity | lia].
    + f_equal. f_equal. lia.
Qed.

Lemma sub_is_add_complement_witness :
  sub 5 7 true = mkAddResult (result (add 5 (not_w 64 7) false))
    (negb (unsigned_overflow (add 5 (not_w 64 7) false)))
    (signed_overflow (add 5 (not_w 64 7) false)).
Proof. apply (sub_is_add_complement 5 7 true); lia. Defined.

Lemma quot_range (x y : Z) : y <> 0 -> - 2 ^ 63 <= x < 2 ^ 63 -> - 2 ^ 63 <= y < 2 ^ 63 ->
  ~ (x = - 2 ^ 63 /\ y = -1) -> - 2 ^ 63 <= Z.quot x y < 2 ^ 63.
Proof.
  intros Hy Hx Hy' Hn.
  pose proof (Z.quot_rem' x y) as E.
  pose proof (Z.rem_bound_abs x y Hy) as Hb.
  pose proof (Z.rem_sign_mul x y Hy) as Hs.
  pose proof (Z.quot_abs x y Hy) as Hq.
  assert (Z.abs x ÷ Z.abs y <= Z.abs x).
  { rewrite Z.quot_div_nonneg by lia. apply Z.div_le_upper_bound; nia. }
  set (q := Z.quot x y) in *. set (r := Z.rem x y) in *.
  destruct (Z.eq_dec q (2 ^ 63)) as [Eq|Eq].
  - exfalso. rewrite Eq in E. destruct (Z.ltb_spec y 0); destruct (Z.ltb_spec x 0); nia.
  - lia.
Qed.

(** X12: where [ops::idiv] and [ops::rem] succeed, their results (read as
    [i64]) satisfy the division identity a = q * b + r, with |r| < |b| and r
    zero or of the sign of a: the quotient rounds toward zero. *)
Theorem idiv_rem_identity (a b q r : Z) :
  0 <= a < 2 ^ 64 -> 0 <= b < 2 ^ 64 -> idiv a b = Some q -> rem a b = Some r ->
  as_i64 a = as_i64 q * as_i64 b + as_i64 r /\
  Z.abs (as_i64 r) < Z.abs (as_i64 b) /\ 0 <= as_i64 a * as_i64 r.
Proof.
  intros Ha Hb Hq Hr.
  pose proof (as_i64_range a Ha) as Ra. pose proof (as_i64_range b Hb) as Rb.
  unfold idiv, i64_checked_div in Hq. unfold rem, i64_checked_rem in Hr.
  destruct (i64_div_fails (as_i64 a) (as_i64 b)) eqn:Hf; [discriminate|].
  cbn [option_u64] in Hq, Hr. injection Hq as <-. injection Hr as <-.
  unfold i64_div_fails in Hf. apply orb_false_iff in Hf. destruct Hf as [H0 Hm].
  apply Z.eqb_neq in H0.
  assert (Hn : ~ (as_i64 a = - 2 ^ 63 /\ as_i64 b = -1)).
  { intros [E1 E2]. rewrite E1, E2 in Hm. discriminate Hm. }
  pose proof (quot_range _ _ H0 Ra Rb Hn) as Hqr.
  pose proof (rem_range _ _ H0 Ra Rb) as Hrr.
  rewrite !as_i64_as_u64 by lia.
  split; [|split].
  - rewrite Z.mul_comm. apply Z.quot_rem'.
  - apply Z.rem_bound_abs. exact H0.
  - rewrite Z.mul_comm. apply Z.rem_sign_mul. exact H0.
Qed.

Lemma idiv_rem_identity_witness :
  as_i64 (2 ^ 64 - 7) = as_i64 (2 ^ 64 - 2) * as_i64 3 + as_i64 (2 ^ 64 - 1) /\
  Z.abs (as_i64 (2 ^ 64 - 1)) < Z.abs (as_i64 3) /\
  0 <= as_i64 (2 ^ 64 - 7) * as_i64 (2 ^ 64 - 1).
Proof.
  apply (idiv_rem_identity (2 ^ 64 - 7) 3 (2 ^ 64 - 2) (2 ^ 64 - 1)); try lia;
    vm_compute; reflexivity.
Defined.

(** ** Writing a [bool] slice *)

Lemma testbit_pow2_mod (I w j : Z) : 0 <= I < w -> 0 <= j ->
  Z.testbit (2 ^ I mod 2 ^ w) j = (j =? I).
Proof.
  intros HI Hj. rewrite testbit_mod_pow2 by lia. rewrite Z.pow2_bits_eqb by lia.
  destruct (Z.eqb_spec I j); destruct (Z.eqb_spec j I); destruct (Z.ltb_spec j w);
    cbn; lia || reflexivity.
Qed.

Lemma bool_write_to_bits (w to INDEX : Z) (v : bool) : 0 <= INDEX < w -> 0 <= to < 2 ^ w ->
  forall j, 0 <= j ->
  Z.testbit (bool_write_to w to INDEX v) j = if j =? INDEX then v else Z.testbit to j.
Proof.
  intros HI Hto j Hj. unfold bool_write_to. rewrite Z.shiftl_1_l.
  destruct v.
  - rewrite Z.lor_spec, testbit_pow2_mod by lia.
    destruct (Z.eqb_spec j INDEX); [apply orb_true_r|apply orb_false_r].
  - unfold not_w. rewrite Z.land_spec, testbit_mod_pow2, Z.lnot_spec, testbit_pow2_mod by lia.
    destruct (Z.eqb_spec j INDEX); cbn [negb].
    + rewrite !andb_false_r. reflexivity.
    + destruct (Z.ltb_spec j w); cbn [andb].
      * apply andb_true_r.
      * rewrite andb_false_r. symmetry. apply (testbit_small to w j); lia.
Qed.

(** X13: for a [bool] slice of an integer container ([u8], [u16], [u32],
    [u64]) at an index inside the container, [write_to] keeps the value in
    range, sets bit INDEX to the written value and leaves every other bit
    unchanged; after writing [true], [access_to] reads [true]. *)
Theorem bool_write_to_spec (w to INDEX : Z) (v : bool) :
  0 <= INDEX < w -> 0 <= to < 2 ^ w ->
  0 <= bool_write_to w to INDEX v < 2 ^ w /\
  Z.testbit (bool_write_to w to INDEX v) INDEX = v /\
  (forall j, 0 <= j -> j <> INDEX -> Z.testbit (bool_write_to w to INDEX v) j = Z.testbit to j) /\
  (v = true -> bool_access_to (bool_write_to w to INDEX v) INDEX = true).
Proof.
  intros HI Hto.
  pose proof (bool_write_to_bits w to INDEX v HI Hto) as Hb.
  split; [|split; [|split]].
  - assert (E : bool_write_to w to INDEX v = bool_write_to w to INDEX v mod 2 ^ w).
    { apply Z.bits_inj'. intros j Hj. rewrite testbit_mod_pow2, Hb by lia.
      destruct (Z.eqb_spec j INDEX); destruct (Z.ltb_spec j w); cbn [andb];
        try reflexivity; try lia.
      apply (testbit_small to w j); lia. }
    rewrite E. apply Z.mod_pos_bound. lia.
  - rewrite Hb, Z.eqb_refl by lia. reflexivity.
  - intros j Hj Hne. rewrite Hb by exact Hj. apply Z.eqb_neq in Hne. rewrite Hne. reflexivity.
  - intros ->. unfold bool_access_to. apply negb_true_iff. apply Z.eqb_neq. intros H0.
    assert (Ht : Z.testbit (Z.shiftr (bool_write_to w to INDEX true) INDEX) 0 = true).
    { rewrite Z.shiftr_spec, Z.add_0_l, Hb, Z.eqb_refl by lia. reflexivity. }
    rewrite H0, Z.bits_0 in Ht. discriminate Ht.
Qed.

Lemma bool_write_to_spec_witness :
  0 <= bool_write_to 8 2 0 true < 2 ^ 8 /\ Z.testbit (bool_write_to 8 2 0 true) 0 = true.
Proof.
  pose proof (bool_write_to_spec 8 2 0 true ltac:(lia) ltac:(lia)) as H.
  split; [exact (proj1 H) | exact (proj1 (proj2 H))].
Defined.

Lemma as_u8_inj (n m : Nibble) : as_u8 n = as_u8 m -> n = m.
Proof. destruct n, m; cbn; intros H; first [reflexivity | discriminate H]. Qed.

Lemma bool_write_to_Nibble_eq (n : Nibble) (INDEX : Z) (v : bool) :
  bool_write_to_Nibble n INDEX v =
  if 4 <? INDEX then Done n else Nibble_from_u8 (bool_write_to 8 (as_u8 n) INDEX v).
Proof. unfold bool_write_to_Nibble, bool_write_to. destruct v; reflexivity. Qed.

Lemma as_u8_bits_high (n : Nibble) (j : Z) : 4 <= j -> Z.testbit (as_u8 n) j = false.
Proof.
  intros Hj. apply (testbit_small (as_u8 n) 4 j); [|exact Hj].
  pose proof (as_u8_range n). change (2 ^ 4) with 16. lia.
Qed.

(** X14: writing a [bool] into a [Nibble] never panics; below index 4 it
    sets bit INDEX to the written value and keeps the other bits; at index 4
    and above it leaves the nibble unchanged (index 4 is let through the
    [INDEX > 4] guard, but [Nibble::from_u8] drops the bit). *)
Theorem bool_write_to_Nibble_spec (n : Nibble) (INDEX : Z) (v : bool) : 0 <= INDEX ->
  exists n', bool_write_to_Nibble n INDEX v = Done n' /\
    (INDEX < 4 -> Z.testbit (as_u8 n') INDEX = v /\
       forall j, 0 <= j -> j <> INDEX -> Z.testbit (as_u8 n') j = Z.testbit (as_u8 n) j) /\
    (4 <= INDEX -> n' = n).
Proof.
  intros HI. rewrite bool_write_to_Nibble_eq.
  destruct (Z.ltb_spec 4 INDEX).
  - exists n. split; [reflexivity|]. split; [intros; lia|reflexivity].
  - assert (Hto : 0 <= as_u8 n < 2 ^ 8) by (pose proof (as_u8_range n); lia).
    pose proof (bool_write_to_bits 8 (as_u8 n) INDEX v ltac:(lia) Hto) as Hb.
    destruct (Nibble_from_u8_spec (bool_write_to 8 (as_u8 n) INDEX v)) as [n' [Hn Hv]].
    assert (Hbits : forall j, 0 <= j -> Z.testbit (as_u8 n') j =
      (j <? 4) && (if j =? INDEX then v else Z.testbit (as_u8 n) j)).
    { intros j Hj. rewrite Hv. change 16 with (2 ^ 4).
      rewrite testbit_mod_pow2, Hb by lia. reflexivity. }
    exists n'. split; [exact Hn|]. split.
    + intros H4. split.
      * rewrite Hbits, Z.eqb_refl by lia. replace (INDEX <? 4) with true
          by (symmetry; apply Z.ltb_lt; lia). reflexivity.
      * intros j Hj Hne. rewrite Hbits by exact Hj. apply Z.eqb_neq in Hne. rewrite Hne.
        destruct (Z.ltb_spec j 4); [reflexivity|]. symmetry. apply as_u8_bits_high. lia.
    + intros H4. apply as_u8_inj. apply Z.bits_inj'. intros j Hj. rewrite Hbits by exact Hj.
      destruct (Z.ltb_spec j 4); cbn [andb].
      * replace (j =? INDEX) with false by (symmetry; apply Z.eqb_neq; lia). reflexivity.
      * symmetry. apply as_u8_bits_high. lia.
Qed.

Lemma bool_write_to_Nibble_spec_witness :
  exists n', bool_write_to_Nibble X5 4 true = Done n' /\
    (4 < 4 -> Z.testbit (as_u8 n') 4 = true /\
       forall j, 0 <= j -> j <> 4 -> Z.testbit (as_u8 n') j = Z.testbit (as_u8 X5) j) /\
    (4 <= 4 -> n' = X5).
Proof. apply (bool_write_to_Nibble_spec X5 4 true). lia. Defined.

(** ** Sub-codes *)

Lemma FloatPrecision_try_from_u8_Some (v : Z) (p : FloatPrecision) :
  FloatPrecision_try_from_u8 v = Some p -> FloatPrecision_as_u8 p = v.
Proof.
  unfold FloatPrecision_try_from_u8. intros H.
  destruct v as [|q|q]; [injection H as <-; reflexivity| |discriminate].
  do 2 (destruct q as [q|q|]; try (injection H as <-; reflexivity)); discriminate.
Qed.

(** X15: the sub-code decoders [BranchCond::try_from_nibble],
    [LiType::try_from_nibble], [FloatPrecision::try_from_nibble] and
    [FloatPrecision::try_from_u8] return exactly the variant whose declared
    discriminant equals the input, and [None] when no variant has it (for
    branch conditions the nibbles 7, 8 and 0xF). *)
Theorem sub_code_discriminants :
  (forall n cc, BranchCond_try_from_nibble n = Some cc <-> BranchCond_as_u8 cc = as_u8 n) /\
  (forall n t, LiType_try_from_nibble n = Some t <-> LiType_as_u8 t = as_u8 n) /\
  (forall n p, FloatPrecision_try_from_nibble n = Some p <-> FloatPrecision_as_u8 p = as_u8 n) /\
  (forall v p, FloatPrecision_try_from_u8 v = Some p <-> FloatPrecision_as_u8 p = v).
Proof.
  split; [|split; [|split]].
  - intros n cc. destruct n, cc; cbn; split; intros H; first [reflexivity | discriminate H].
  - intros n t. destruct n, t; cbn; split; intros H; first [reflexivity | discriminate H].
  - intros n p. destruct n, p; cbn; split; intros H; first [reflexivity | discriminate H].
  - intros v p. split; [apply FloatPrecision_try_from_u8_Some|intros <-; destruct p; reflexivity].
Qed.

(** ** Which words the decoder rejects *)

Lemma decoder_nibble_fields (w : Z) (fr : F) (er : E) (br : B) :
  F_from_u32 w = Done fr -> E_from_u32 w = Done er -> B_from_u32 w = Done br ->
  as_u8 (F_func fr) = (w / 2 ^ 24) mod 16 /\ as_u8 (E_func er) = (w / 2 ^ 16) mod 16 /\
  as_u8 (B_func br) = (w / 2 ^ 28) mod 16 /\ u16_byte (F_imm fr) 1 = (w / 2 ^ 16) mod 256.
Proof.
  intros Hf He Hb.
  unfold F_from_u32 in Hf; unfold E_from_u32 in He; unfold B_from_u32 in Hb.
  cbv zeta in Hf, He, Hb.
  destruct (Nibble_from_u8_spec (byte_of w 2)) as [e0 [Ee0 Ve0]].
  destruct (Nibble_from_u8_upper_spec (byte_of w 2) (byte_of_range _ _)) as [e1 [Ee1 Ve1]].
  destruct (Nibble_from_u8_spec (byte_of w 3)) as [f [Ef Vf]].
  destruct (Nibble_from_u8_upper_spec (byte_of w 3) (byte_of_range _ _)) as [d [Ed Vd]].
  rewrite Ef, Ed in Hf. rewrite Ee0, Ee1, Ef, Ed in He. rewrite Ed in Hb.
  cbn [obind] in Hf, He, Hb.
  injection Hf as <-. injection He as <-. injection Hb as <-.
  cbn [F_func E_func B_func F_imm].
  split; [|split; [|split]].
  - rewrite Vf, byte_lo_nibble by lia. reflexivity.
  - rewrite Ve0, byte_lo_nibble by lia. reflexivity.
  - rewrite Vd, byte_hi_nibble by lia. reflexivity.
  - unfold u16_from_le_bytes.
    rewrite (proj2 (u16_split _ _ (byte_of_range w 1) (byte_of_range w 2))).
    rewrite byte_of_div by lia. reflexivity.
Qed.

Ltac znum t := lazymatch t with Z0 => idtac | Zpos _ => idtac | Zneg _ => idtac end.

(** Drop the comparisons between numerals that a case split leaves. *)
Ltac clear_num_facts :=
  repeat match goal with
  | H : ?a <> ?b |- _ => znum a; znum b; clear H
  | H : ?a <= ?b |- _ => znum a; znum b; clear H
  | H : ?a <= ?b < ?c |- _ => znum a; znum b; znum c; clear H
  end.

Ltac reject_leaf F6 E4 B7 :=
  clear_num_facts;
  unfold in_range, otry, yield, reject, unreachable;
  cbn -[as_u8];
  repeat (match goal with
    | |- ?L = _ <-> _ =>
      match L with
      | context [F_func ?fr] => let H := fresh in destruct (F_func fr) eqn:H; try rewrite H in F6
      | context [E_func ?er] => let H := fresh in destruct (E_func er) eqn:H; try rewrite H in E4
      | context [B_func ?br] => let H := fresh in destruct (B_func br) eqn:H; try rewrite H in B7
      | context [if ?b =? 0 then _ else _] => destruct (Z.eqb_spec b 0)
      end
    end; cbn -[as_u8]);
  cbn [as_u8] in F6, E4, B7;
  split; intros Hx; first [reflexivity | discriminate Hx | lia].

Lemma in_range_spec (lo hi o : Z) : in_range lo hi o = true <-> lo <= o <= hi.
Proof. unfold in_range. rewrite andb_true_iff, !Z.leb_le. reflexivity. Qed.

Lemma in_range_false (lo hi o : Z) : in_range lo hi o = false -> ~ (lo <= o <= hi).
Proof. rewrite <- in_range_spec. intros -> H. discriminate H. Qed.

Ltac drop_parity :=
  try match goal with
  | H : (in_range _ _ ?o && _) = _ |- _ => znum o; vm_compute in H; discriminate H
  end.

(** Follow the decoder's chain of opcode tests. *)
Ltac reject_chain F6 E4 B7 :=
  lazymatch goal with
  | |- (if ?o =? ?k then _ else _) = _ <-> _ =>
      destruct (Z.eqb_spec o k) as [?E|?E];
      [subst o; reject_leaf F6 E4 B7 | reject_chain F6 E4 B7]
  | |- (if in_range ?lo ?hi ?o && ?c then _ else _) = _ <-> _ =>
      let H := fresh "Hr" in
      destruct (in_range lo hi o && c) eqn:H;
      [ let H' := fresh "Hr" in
        pose proof H as H'; apply andb_true_iff in H'; destruct H' as [H' _];
        apply in_range_spec in H'; zcases o lo hi; drop_parity; reject_leaf F6 E4 B7
      | reject_chain F6 E4 B7 ]
  | |- (if in_range ?lo ?hi ?o then _ else _) = _ <-> _ =>
      let H := fresh "Hr" in
      destruct (in_range lo hi o) eqn:H;
      [ apply in_range_spec in H; zcases o lo hi; drop_parity; reject_leaf F6 E4 B7
      | apply in_range_false in H; reject_chain F6 E4 B7 ]
  | |- _ =>
      repeat match goal with H : (in_range _ _ _ && _) = false |- _ => clear H end;
      unfold reject; split; intros _; [lia|reflexivity]
  end.

(** X16: [InstructionSet::try_from_instruction] returns [None] exactly on
    the opcodes it does not assign (0x00, 0x0F, 0x1C, 0x1D and 0x50 and
    above) and on assigned opcodes whose sub-code nibble has no meaning:
    [int]/[iret]/[ires]/[usr] (0x01) with func (nibble 6) >= 4, or func 0 and
    a non-zero high immediate byte (bits 16..23); [branch] (0x0A) with
    condition nibble 7 equal to 7, 8 or 0xF; [li] (0x10) with nibble 6 >= 8;
    [cmpi] (0x1F) with nibble 6 >= 2; the float operations (0x40 ..= 0x4F)
    with precision nibble 4 >= 3, except [fcnv] (0x4E), which rejects
    nibble 4 >= 12.  Every other word decodes. *)
Theorem try_from_instruction_reject_iff (w : Z) :
  try_from_instruction w = Done None <->
    opcode w = 0 \/ opcode w = 15 \/ opcode w = 28 \/ opcode w = 29 \/ 80 <= opcode w \/
    (opcode w = 1 /\ (4 <= (w / 2 ^ 24) mod 16 \/
                      ((w / 2 ^ 24) mod 16 = 0 /\ (w / 2 ^ 16) mod 256 <> 0))) \/
    (opcode w = 10 /\ ((w / 2 ^ 28) mod 16 = 7 \/ (w / 2 ^ 28) mod 16 = 8 \/
                       (w / 2 ^ 28) mod 16 = 15)) \/
    (opcode w = 16 /\ 8 <= (w / 2 ^ 24) mod 16) \/
    (opcode w = 31 /\ 2 <= (w / 2 ^ 24) mod 16) \/
    (64 <= opcode w <= 79 /\ opcode w <> 78 /\ 3 <= (w / 2 ^ 16) mod 16) \/
    (opcode w = 78 /\ 12 <= (w / 2 ^ 16) mod 16).
Proof.
  destruct (E_from_u32_Done w) as [er Her].
  destruct (R_from_u32_Done w) as [rr Hrr].
  destruct (M_from_u32_Done w) as [mr Hmr].
  destruct (F_from_u32_Done w) as [fr Hfr].
  destruct (B_from_u32_Done w) as [br Hbr].
  destruct (decoder_nibble_fields w fr er br Hfr Her Hbr) as [F6 [E4 [B7 Fi]]].
  set (n6 := (w / 2 ^ 24) mod 16) in *. set (n4 := (w / 2 ^ 16) mod 16) in *.
  set (n7 := (w / 2 ^ 28) mod 16) in *. set (b2 := (w / 2 ^ 16) mod 256) in *.
  clearbody n6 n4 n7 b2.
  unfold try_from_instruction; cbv zeta.
  rewrite Her, Hrr, Hmr, Hfr, Hbr. cbn [obind].
  unfold Interrupt_try_from_u16. rewrite Fi.
  pose proof (opcode_range w) as Hop.
  remember (opcode w) as opc eqn:Hopc. clear Hopc.
  reject_chain F6 E4 B7.
Qed.

(** ** Bitwise operations in [ops] *)

(** X17: for a shift amount [b < 64], [ops::shl] is the product by 2^b
    wrapped to 64 bits, [ops::shr] the unsigned quotient by 2^b, [ops::asr]
    the signed quotient rounded toward minus infinity (the sign is kept),
    [ops::bit] is 1 or 0 as bit [b] of [a] is set or not; [ops::nor] clears
    exactly the bits set in [a] or [b]. *)
Theorem shift_ops_spec (a b : Z) : 0 <= a < 2 ^ 64 -> 0 <= b < 64 ->
  shl a b = Done ((a * 2 ^ b) mod 2 ^ 64) /\
  shr a b = Done (a / 2 ^ b) /\
  (exists r, asr a b = Done r /\ as_i64 r = as_i64 a / 2 ^ b) /\
  bit a b = Done (if Z.testbit a b then 1 else 0) /\
  (forall c j, 0 <= j < 64 ->
     Z.testbit (nor a c) j = negb (Z.testbit a j || Z.testbit c j)).
Proof.
  intros Ha Hb.
  assert (Hlt : (b <? 64) = true) by (apply Z.ltb_lt; lia).
  unfold shl, shr, asr, bit. rewrite Hlt.
  split; [|split; [|split; [|split]]].
  - rewrite Z.shiftl_mul_pow2 by lia. reflexivity.
  - rewrite Z.shiftr_div_pow2 by lia. reflexivity.
  - eexists. split; [reflexivity|].
    rewrite Z.shiftr_div_pow2 by lia. apply as_i64_as_u64.
    pose proof (as_i64_range a Ha).
    assert (0 < 2 ^ b) by (apply Z.pow_pos_nonneg; lia).
    split.
    + apply Z.div_le_lower_bound; [lia|].
      assert (1 <= 2 ^ b) by lia. nia.
    + apply Z.div_lt_upper_bound; [lia|]. nia.
  - f_equal. apply Z.bits_inj'. intros j Hj.
    rewrite Z.land_spec, Z.shiftr_spec by lia.
    destruct (Z.eq_dec j 0) as [->|Hj0].
    + rewrite Z.add_0_l. destruct (Z.testbit a b); reflexivity.
    + replace (Z.testbit 1 j) with false.
      * rewrite andb_false_r. destruct (Z.testbit a b).
        -- symmetry. apply (testbit_small 1 1 j); change (2 ^ 1) with 2; lia.
        -- symmetry. apply Z.bits_0.
      * symmetry. apply (testbit_small 1 1 j); change (2 ^ 1) with 2; lia.
  - intros c j Hj. unfold nor. rewrite testbit_mod_pow2, Z.lnot_spec, Z.lor_spec by lia.
    replace (j <? 64) with true by (symmetry; apply Z.ltb_lt; lia). reflexivity.
Qed.

Lemma shift_ops_spec_witness :
  (exists r, asr (2 ^ 64 - 7) 1 = Done r /\ as_i64 r = as_i64 (2 ^ 64 - 7) / 2 ^ 1) /\
  bit 5 2 = Done (if Z.testbit 5 2 then 1 else 0).
Proof.
  pose proof (shift_ops_spec (2 ^ 64 - 7) 1 ltac:(lia) ltac:(lia)) as H.
  pose proof (shift_ops_spec 5 2 ltac:(lia) ltac:(lia)) as H'.
  split; [exact (proj1 (proj2 (proj2 H))) | exact (proj1 (proj2 (proj2 (proj2 H'))))].
Defined.
